(** * OpenScribe audio ingest: capture/audio-processing.ts

    A shallow embedding of the capture pipeline of
    [packages/pipeline/audio-ingest/src/capture/audio-processing.ts]
    (resampler, sample accumulator, segmenter, WAV encoder) and of the upload
    controller exercised by the transcribe tests, with the properties the
    design document states about them.

    Conventions.
    - A [Float32Array] is a list of samples; typed arrays are values, so the
      model assumes callers do not write to an array after handing it to
      [push]/[prepend].
    - Sample counts ([count], [segmentSamples], [overlapSamples], ...) are
      natural numbers.
    - A JavaScript exception is a [Thrown] completion; the object is left as
      it was before the call. *)

From Stdlib Require Import String Ascii.
From Stdlib Require Import List Arith ZArith QArith Qround Lia Lqa Bool.
Import ListNotations.

Set Implicit Arguments.
Close Scope Q_scope.
Open Scope nat_scope.

(* ------------------------------------------------------------------ *)
(** ** Completions: values and exceptions *)

Inductive error : Type :=
| InsufficientSamples   (* new Error("Insufficient samples") *)
| RangeError.           (* raised by the typed-array primitives *)

Inductive completion (A : Type) : Type :=
| Returned (a : A)
| Thrown (e : error).

Arguments Returned {A} a.
Arguments Thrown {A} e.

Definition bind {A B : Type} (c : completion A) (k : A -> completion B)
  : completion B :=
  match c with
  | Returned a => k a
  | Thrown e => Thrown e
  end.

Notation "x <- c ;; k" := (bind c (fun x => k))
  (at level 61, c at next level, right associativity).

(* ------------------------------------------------------------------ *)
(** ** Numbers

    A JavaScript [number] is modelled as an exact rational or one of the
    three special values.  Rounding to binary64 (and to binary32 when a
    value is stored in a [Float32Array]) and the sign of zero are not
    modelled. *)

Inductive number : Type :=
| NaN
| PosInf
| NegInf
| Fin (q : Q).

Definition of_Z (z : Z) : number := Fin (inject_Z z).
Definition of_nat (n : nat) : number := of_Z (Z.of_nat n).

Definition Qlt_bool (x y : Q) : bool := negb (Qle_bool y x).

(** [a < b]; every comparison with NaN is false. *)
Definition num_ltb (a b : number) : bool :=
  match a, b with
  | NaN, _ | _, NaN => false
  | Fin x, Fin y => Qlt_bool x y
  | _, NegInf => false
  | NegInf, _ => true
  | PosInf, _ => false
  | Fin _, PosInf => true
  end.

(** [a <= b] *)
Definition num_leb (a b : number) : bool :=
  match a, b with
  | NaN, _ | _, NaN => false
  | Fin x, Fin y => Qle_bool x y
  | NegInf, _ => true
  | _, PosInf => true
  | _, NegInf => false
  | PosInf, _ => false
  end.

(** [a > b] *)
Definition num_gtb (a b : number) : bool := num_ltb b a.

Definition num_neg (a : number) : number :=
  match a with
  | NaN => NaN
  | PosInf => NegInf
  | NegInf => PosInf
  | Fin x => Fin (Qopp x)
  end.

(** [a + b] *)
Definition num_add (a b : number) : number :=
  match a, b with
  | NaN, _ | _, NaN => NaN
  | Fin x, Fin y => Fin (Qplus x y)
  | PosInf, NegInf | NegInf, PosInf => NaN
  | PosInf, _ | _, PosInf => PosInf
  | NegInf, _ | _, NegInf => NegInf
  end.

(** [a - b] *)
Definition num_sub (a b : number) : number := num_add a (num_neg b).

(** An infinity of the sign of the rational [x], NaN for zero. *)
Definition signed_inf (x : Q) : number :=
  if Qlt_bool 0 x then PosInf
  else if Qlt_bool x 0 then NegInf
  else NaN.

(** [a * b] *)
Definition num_mul (a b : number) : number :=
  match a, b with
  | NaN, _ | _, NaN => NaN
  | Fin x, Fin y => Fin (Qmult x y)
  | PosInf, Fin y | Fin y, PosInf => signed_inf y
  | NegInf, Fin y | Fin y, NegInf => signed_inf (Qopp y)
  | PosInf, PosInf | NegInf, NegInf => PosInf
  | PosInf, NegInf | NegInf, PosInf => NegInf
  end.

(** [a / b] *)
Definition num_div (a b : number) : number :=
  match a, b with
  | NaN, _ | _, NaN => NaN
  | Fin x, Fin y => if Qeq_bool y 0 then signed_inf x else Fin (Qdiv x y)
  | Fin _, PosInf | Fin _, NegInf => Fin 0
  | PosInf, Fin y => if Qlt_bool y 0 then NegInf else PosInf
  | NegInf, Fin y => if Qlt_bool y 0 then PosInf else NegInf
  | _, _ => NaN
  end.

(** [Math.floor] *)
Definition Math_floor (a : number) : number :=
  match a with
  | Fin x => of_Z (Qfloor x)
  | _ => a
  end.

(** [Math.min], [Math.max]: NaN when an argument is NaN. *)
Definition Math_min (a b : number) : number :=
  match a, b with
  | NaN, _ | _, NaN => NaN
  | _, _ => if num_leb a b then a else b
  end.

Definition Math_max (a b : number) : number :=
  match a, b with
  | NaN, _ | _, NaN => NaN
  | _, _ => if num_leb a b then b else a
  end.

(** Truncation towards zero of a rational. *)
Definition Qtrunc (x : Q) : Z :=
  if Qle_bool 0 x then Qfloor x else Qceiling x.

(* ------------------------------------------------------------------ *)
(** ** Typed arrays *)

Definition sample : Type := number.
Definition Float32Array : Type := list sample.

(** [new Float32Array(n)]: [n] zeros. *)
Definition new_Float32Array (n : nat) : Float32Array := repeat (Fin 0) n.

(** [a.subarray(b, e)] and [a.slice(b, e)] for [0 <= b]: the elements at
    indices [b .. e-1], both ends clamped to the length. *)
Definition subarray (a : Float32Array) (b e : nat) : Float32Array :=
  firstn (e - b) (skipn b a).

(** [a.subarray(b)] / [a.slice(b)]. *)
Definition subarray_from (a : Float32Array) (b : nat) : Float32Array :=
  skipn b a.

(** [a.slice(start)] for an integer [start]: a negative [start] counts from
    the end of the array. *)
Definition slice (a : Float32Array) (start : Z) : Float32Array :=
  let k := if (start <? 0)%Z
           then Z.max (Z.of_nat (length a) + start) 0
           else start in
  skipn (Z.to_nat k) a.

(** [a.slice(start)] for a [number]: ToIntegerOrInfinity, then as above. *)
Definition slice_num (a : Float32Array) (start : number) : Float32Array :=
  match start with
  | NaN => slice a 0
  | PosInf => []
  | NegInf => a
  | Fin x => slice a (Qtrunc x)
  end.

(** [new Float32Array(len)] for a [number]: ToIndex raises RangeError for a
    negative or infinite length (allocation limits are not modelled). *)
Definition Float32Array_of_length (len : number) : completion Float32Array :=
  match len with
  | NaN => Returned (new_Float32Array 0)
  | PosInf | NegInf => Thrown RangeError
  | Fin x =>
      if (Qtrunc x <? 0)%Z then Thrown RangeError
      else Returned (new_Float32Array (Z.to_nat (Qtrunc x)))
  end.

(** [a[i]] read as a number: [undefined] (NaN in arithmetic) unless [i] is
    an index of [a]. *)
Definition array_get (a : Float32Array) (i : number) : number :=
  match i with
  | Fin x =>
      if Qeq_bool x (inject_Z (Qfloor x)) && (0 <=? Qfloor x)%Z
      then nth (Z.to_nat (Qfloor x)) a NaN
      else NaN
  | _ => NaN
  end.

(** [a[i] = v] for a natural [i]: a store outside the array is ignored. *)
Definition array_store (a : Float32Array) (i : nat) (v : sample)
  : Float32Array :=
  if i <? length a then firstn i a ++ v :: skipn (S i) a else a.

(** [dst.set(src, at)]: overwrite [dst[at .. at+|src|-1]]; a source that does
    not fit raises RangeError. *)
Definition typed_set (dst src : Float32Array) (at_ : nat)
  : completion Float32Array :=
  if length dst <? at_ + length src then Thrown RangeError
  else Returned (firstn at_ dst ++ src ++ skipn (at_ + length src) dst).

(** The chunk [0, 1, ..., n-1], as the tests build it with
    [Float32Array.from({ length: n }, (_, i) => i)]. *)
Definition ramp (n : nat) : Float32Array := map of_nat (seq 0 n).

(* ------------------------------------------------------------------ *)
(** ** class StreamingResampler *)

Module StreamingResampler.

Record t : Type := mk {
  sourceRate : number;
  targetRate : number;
  ratio : number;
  buffer : Float32Array
}.

Definition set_buffer (r : t) (b : Float32Array) : t :=
  mk (sourceRate r) (targetRate r) (ratio r) b.

Definition constructor (sourceRate targetRate : number) : t :=
  let baseRatio := num_div sourceRate targetRate in
  mk sourceRate targetRate
     (if num_gtb baseRatio (of_Z 0) then baseRatio else of_Z 1)
     (new_Float32Array 0).

(** The value stored in [output[i]] by the interpolation loop. *)
Definition interpolate (combined : Float32Array) (ratio : number) (i : nat)
  : sample :=
  let index := num_mul (of_nat i) ratio in
  let left := Math_floor index in
  let right := Math_min (num_add left (of_Z 1))
                        (num_sub (of_nat (length combined)) (of_Z 1)) in
  let frac := num_sub index left in
  let leftSample := array_get combined left in
  let rightSample := array_get combined right in
  num_add leftSample (num_mul (num_sub rightSample leftSample) frac).

(** The [consumed] count of a call whose combined input has [len] samples:
    nothing on the path that only stores the input. *)
Definition consumed_count (ratio : number) (len : nat) : number :=
  let outputLength := Math_floor (num_div (of_nat len) ratio) in
  if num_leb outputLength (of_Z 0) then of_Z 0
  else Math_floor (num_mul outputLength ratio).

Definition process (input : Float32Array) (r : t)
  : completion (Float32Array * t) :=
  if length input =? 0 then Returned (new_Float32Array 0, r)
  else
    let combined := buffer r ++ input in
    let outputLength :=
      Math_floor (num_div (of_nat (length combined)) (ratio r)) in
    if num_leb outputLength (of_Z 0)
    then Returned (new_Float32Array 0, set_buffer r combined)
    else
      output0 <- Float32Array_of_length outputLength ;;
      let output :=
        fold_left
          (fun out i => array_store out i (interpolate combined (ratio r) i))
          (seq 0 (length output0)) output0 in
      let consumed := Math_floor (num_mul outputLength (ratio r)) in
      let remaining := num_sub (of_nat (length combined)) consumed in
      let buffer' :=
        if num_gtb remaining (of_Z 0) then slice_num combined consumed
        else new_Float32Array 0 in
      Returned (output, set_buffer r buffer').

Definition flush (r : t) : Float32Array * t :=
  (buffer r, set_buffer r (new_Float32Array 0)).

(** The integer a count stands for. *)
Definition count_of (a : number) : Z :=
  match a with
  | Fin x => Qfloor x
  | _ => 0%Z
  end.

(** A sequence of [process] calls: the emitted chunks, the total of the
    [consumed] counts, and the final object. *)
Fixpoint process_all (inputs : list Float32Array) (r : t)
  : completion (list Float32Array * Z * t) :=
  match inputs with
  | [] => Returned ([], 0%Z, r)
  | input :: rest =>
      o <- process input r ;;
      let '(output, r1) := o in
      let consumed :=
        if length input =? 0 then 0%Z
        else count_of (consumed_count (ratio r) (length (buffer r ++ input))) in
      p <- process_all rest r1 ;;
      let '(outputs, total, r2) := p in
      Returned (output :: outputs, (consumed + total)%Z, r2)
  end.


End StreamingResampler.

(* ------------------------------------------------------------------ *)
(** ** class SampleBuffer *)

Module SampleBuffer.

Record chunk : Type := mkChunk { data : Float32Array; offset : nat }.

Record t : Type := mk { chunks : list chunk; totalLength : nat }.

(** [chunks = []], [totalLength = 0]. *)
Definition empty : t := mk [] 0.

Definition push (d : Float32Array) (b : t) : t :=
  if length d =? 0 then b
  else mk (chunks b ++ [mkChunk d 0]) (totalLength b + length d).

Definition prepend (d : Float32Array) (b : t) : t :=
  if length d =? 0 then b
  else mk (mkChunk d 0 :: chunks b) (totalLength b + length d).

(** State of the [while] loop of [consume]: the run list, the [result]
    array and the [copied] counter. *)
Record consume_state : Type :=
  mkCS { cs_chunks : list chunk; cs_result : Float32Array; cs_copied : nat }.

(** [copied < count && this.chunks.length > 0] *)
Definition consume_guard (count : nat) (st : consume_state) : bool :=
  (cs_copied st <? count) && (0 <? length (cs_chunks st)).

(** One iteration of the loop body. *)
Definition consume_body (count : nat) (st : consume_state)
  : completion consume_state :=
  match cs_chunks st with
  | [] => Returned st
  | c :: rest =>
      let available := length (data c) - offset c in
      let toCopy := Nat.min available (count - cs_copied st) in
      if 0 <? toCopy then
        result' <- typed_set (cs_result st)
                     (subarray (data c) (offset c) (offset c + toCopy))
                     (cs_copied st) ;;
        let c' := mkChunk (data c) (offset c + toCopy) in
        let copied' := cs_copied st + toCopy in
        if length (data c) <=? offset c'
        then Returned (mkCS rest result' copied')
        else Returned (mkCS (c' :: rest) result' copied')
      else Returned (mkCS rest (cs_result st) (cs_copied st))
  end.

(** The loop, unrolled at most [fuel] times. *)
Fixpoint consume_loop (fuel count : nat) (st : consume_state)
  : completion consume_state :=
  match fuel with
  | O => Returned st
  | S fuel' =>
      if consume_guard count st
      then st' <- consume_body count st ;; consume_loop fuel' count st'
      else Returned st
  end.

(** [consume(count)].  Every iteration but possibly the last removes a
    run, so [length chunks + 1] unrollings reach the loop exit
    (lemma [consume_loop_exits]). *)
Definition consume (count : nat) (b : t) : completion (Float32Array * t) :=
  if totalLength b <? count then Thrown InsufficientSamples
  else
    st <- consume_loop (S (length (chunks b))) count
            (mkCS (chunks b) (new_Float32Array count) 0) ;;
    Returned (cs_result st, mk (cs_chunks st) (totalLength b - count)).

(** The [for ... of] loop of [drain]: copy every run's unconsumed part. *)
Fixpoint drain_loop (cs : list chunk) (result : Float32Array) (off : nat)
  : completion Float32Array :=
  match cs with
  | [] => Returned result
  | c :: rest =>
      let slice := subarray_from (data c) (offset c) in
      result' <- typed_set result slice off ;;
      drain_loop rest result' (off + length slice)
  end.

Definition drain (b : t) : completion (Float32Array * t) :=
  if totalLength b =? 0 then Returned (new_Float32Array 0, b)
  else
    result <- drain_loop (chunks b) (new_Float32Array (totalLength b)) 0 ;;
    Returned (result, mk [] 0).

Definition clear (b : t) : t := mk [] 0.

(** [get length()] *)
Definition length (b : t) : nat := totalLength b.

(** The unconsumed samples of a run list, front to back. *)
Definition samples_of (cs : list chunk) : list sample :=
  flat_map (fun c => skipn (offset c) (data c)) cs.

Definition contents (b : t) : list sample := samples_of (chunks b).

(** Sum over the runs of [data.length - offset]. *)
Definition unconsumed (b : t) : Z :=
  fold_right
    (fun c acc => (Z.of_nat (List.length (data c)) - Z.of_nat (offset c) + acc)%Z)
    0%Z (chunks b).

(** A caller's use of the object. *)
Inductive op : Type :=
| Push (d : Float32Array)
| Prepend (d : Float32Array)
| Consume (count : nat)
| Drain
| Clear.

(** The state after one call; a call that throws leaves the state as it
    was. *)
Definition apply (b : t) (o : op) : t :=
  match o with
  | Push d => push d b
  | Prepend d => prepend d b
  | Consume n =>
      match consume n b with Returned (_, b') => b' | Thrown _ => b end
  | Drain =>
      match drain b with Returned (_, b') => b' | Thrown _ => b end
  | Clear => clear b
  end.

(** The state after a sequence of calls on a fresh buffer. *)
Definition run (ops : list op) : t := fold_left apply ops empty.

(** Every run still holds at least one unconsumed sample. *)
Definition nonempty_runs (cs : list chunk) : Prop :=
  Forall (fun c => offset c < List.length (data c)) cs.

(** Class invariant: the cached total is the number of unconsumed samples
    and no run is exhausted. *)
Definition wf (b : t) : Prop :=
  totalLength b = List.length (contents b) /\ nonempty_runs (chunks b).

(** Invariant of the loop of [consume count], where [c0] is the unconsumed
    content at the call: [result] has [count] slots, its first [copied]
    slots hold the first [copied] samples of [c0], and the runs hold the
    rest. *)
Definition consume_inv (c0 : list sample) (count : nat) (st : consume_state)
  : Prop :=
  List.length (cs_result st) = count /\
  cs_copied st <= count /\
  firstn (cs_copied st) (cs_result st) = firstn (cs_copied st) c0 /\
  samples_of (cs_chunks st) = skipn (cs_copied st) c0.

(** Iterations left before the loop of [consume count] must exit. *)
Definition consume_measure (count : nat) (st : consume_state) : nat :=
  if cs_copied st <? count then S (List.length (cs_chunks st)) else 0.

End SampleBuffer.

(* ------------------------------------------------------------------ *)
(** ** drainSegments *)

(** State of the [while] loop: the buffer and the segments passed to [emit]
    so far, oldest first. *)
Definition drain_state : Type := (SampleBuffer.t * list Float32Array)%type.

(** One iteration of the body.  [emit] is the callback; it is modelled as
    recording its argument. *)
Definition drainSegments_body (segmentSamples overlapSamples : nat)
    (st : drain_state) : completion drain_state :=
  let '(buffer, emitted) := st in
  r <- SampleBuffer.consume segmentSamples buffer ;;
  let '(samples, buffer1) := r in
  let buffer2 :=
    if 0 <? overlapSamples then
      let overlapCopy :=
        slice samples (Z.of_nat segmentSamples - Z.of_nat overlapSamples) in
      SampleBuffer.prepend overlapCopy buffer1
    else buffer1 in
  Returned (buffer2, emitted ++ [samples]).

(** Result of running the loop with a bound on the number of iterations. *)
Inductive run_result : Type :=
| Finished (st : drain_state)      (* the loop guard became false *)
| Raised (e : error)
| OutOfFuel (st : drain_state).    (* still looping after [fuel] iterations *)

Fixpoint drainSegments_loop (fuel segmentSamples overlapSamples : nat)
    (st : drain_state) : run_result :=
  if segmentSamples <=? SampleBuffer.length (fst st) then
    match fuel with
    | O => OutOfFuel st
    | S fuel' =>
        match drainSegments_body segmentSamples overlapSamples st with
        | Returned st' => drainSegments_loop fuel' segmentSamples overlapSamples st'
        | Thrown e => Raised e
        end
    end
  else Finished st.

Definition drainSegments (fuel : nat) (buffer : SampleBuffer.t)
    (segmentSamples overlapSamples : nat) : run_result :=
  drainSegments_loop fuel segmentSamples overlapSamples (buffer, []).

(** The segments a run has passed to [emit]. *)
Definition emitted_of (r : run_result) : list Float32Array :=
  match r with
  | Finished st | OutOfFuel st => snd st
  | Raised _ => []
  end.

(** The last [n] samples of a segment. *)
Definition lastn (n : nat) (s : Float32Array) : Float32Array :=
  skipn (length s - n) s.

(** Segments [k] and [k+1] of [segs] share [overlap] samples, for every [k]. *)
Definition overlap_chain (overlap : nat) (segs : list Float32Array) : Prop :=
  forall k s1 s2,
    nth_error segs k = Some s1 ->
    nth_error segs (S k) = Some s2 ->
    firstn overlap s2 = lastn overlap s1.

(** Invariant of the loop of [drainSegments]: the buffer is well formed, the
    emitted segments are full and chained, and the buffer starts with the
    tail of the segment emitted last. *)
Definition drain_inv (segmentSamples overlapSamples : nat) (st : drain_state)
  : Prop :=
  SampleBuffer.wf (fst st) /\
  Forall (fun s => length s = segmentSamples) (snd st) /\
  overlap_chain overlapSamples (snd st) /\
  (forall k s1,
      nth_error (snd st) k = Some s1 -> S k = length (snd st) ->
      firstn overlapSamples (SampleBuffer.contents (fst st))
      = lastn overlapSamples s1).

(* ------------------------------------------------------------------ *)
(** ** createFinalSegmentFromRemaining *)

Definition createFinalSegmentFromRemaining (remaining : Float32Array)
    (minFinalSamples segmentSamples : nat) : completion (option Float32Array) :=
  if length remaining <? minFinalSamples then Returned None
  else
    let padded := new_Float32Array segmentSamples in
    padded' <- typed_set padded
                 (subarray remaining 0 (Nat.min segmentSamples (length remaining)))
                 0 ;;
    Returned (Some padded').


(* ------------------------------------------------------------------ *)
(** ** DataView over an ArrayBuffer *)

Definition byte : Type := Z.
Definition ArrayBuffer : Type := list byte.

(** [new ArrayBuffer(n)] *)
Definition new_ArrayBuffer (n : nat) : ArrayBuffer := repeat 0%Z n.

(** ToUint8/ToUint16/ToUint32: truncate, then reduce modulo [2^bits]; NaN
    and the infinities give 0. *)
Definition ToUint (bits : Z) (v : number) : Z :=
  match v with
  | Fin x => (Qtrunc x mod 2 ^ bits)%Z
  | _ => 0%Z
  end.

(** ToInt16: the same bits read as a signed number. *)
Definition ToInt16 (v : number) : Z :=
  let u := ToUint 16 v in
  if (u <? 2 ^ 15)%Z then u else (u - 2 ^ 16)%Z.

(** Byte [k] of [v], least significant first. *)
Definition byte_at (v : Z) (k : nat) : byte :=
  ((v / 256 ^ Z.of_nat k) mod 256)%Z.

(** The [n] little-endian bytes of [v]. *)
Definition le_bytes (n : nat) (v : Z) : list byte :=
  map (byte_at v) (seq 0 n).

(** A store of [bs] at [byteOffset]; RangeError outside the buffer. *)
Definition view_write (view : ArrayBuffer) (byteOffset : nat) (bs : list byte)
  : completion ArrayBuffer :=
  if length view <? byteOffset + length bs then Thrown RangeError
  else Returned (firstn byteOffset view ++ bs
                   ++ skipn (byteOffset + length bs) view).

Definition setUint8 (view : ArrayBuffer) (byteOffset : nat) (v : number)
  : completion ArrayBuffer :=
  view_write view byteOffset (le_bytes 1 (ToUint 8 v)).

(** [view.setUint16(byteOffset, v, true)] *)
Definition setUint16 (view : ArrayBuffer) (byteOffset : nat) (v : number)
  : completion ArrayBuffer :=
  view_write view byteOffset (le_bytes 2 (ToUint 16 v)).

(** [view.setInt16(byteOffset, v, true)]: the two's complement bytes of
    ToInt16 are those of ToUint16. *)
Definition setInt16 (view : ArrayBuffer) (byteOffset : nat) (v : number)
  : completion ArrayBuffer :=
  view_write view byteOffset (le_bytes 2 (ToUint 16 v)).

(** [view.setUint32(byteOffset, v, true)] *)
Definition setUint32 (view : ArrayBuffer) (byteOffset : nat) (v : number)
  : completion ArrayBuffer :=
  view_write view byteOffset (le_bytes 4 (ToUint 32 v)).

(** The little-endian unsigned value of the [n] bytes at [byteOffset]
    (the reads of a decoder; the bytes are taken to be in the buffer). *)
Definition getUint (n : nat) (view : ArrayBuffer) (byteOffset : nat) : Z :=
  fold_right (fun b acc => (b + 256 * acc)%Z) 0%Z
             (firstn n (skipn byteOffset view)).

Definition getUint8 : ArrayBuffer -> nat -> Z := getUint 1.
Definition getUint16 : ArrayBuffer -> nat -> Z := getUint 2.
Definition getUint32 : ArrayBuffer -> nat -> Z := getUint 4.

Definition getInt16 (view : ArrayBuffer) (byteOffset : nat) : Z :=
  let u := getUint 2 view byteOffset in
  if (u <? 2 ^ 15)%Z then u else (u - 2 ^ 16)%Z.

(* ------------------------------------------------------------------ *)
(** ** createWavBlob *)

Record Blob : Type := mkBlob { blob_bytes : ArrayBuffer; blob_type : string }.

(** [str.charCodeAt(i)] *)
Definition charCode (c : ascii) : number := of_nat (nat_of_ascii c).

(** The local [writeString]: one [setUint8] per character. *)
Fixpoint writeString (view : ArrayBuffer) (offset : nat) (str : string)
  : completion ArrayBuffer :=
  match str with
  | EmptyString => Returned view
  | String c rest =>
      view' <- setUint8 view offset (charCode c) ;;
      writeString view' (offset + 1) rest
  end.

(** The value handed to [setInt16] for a sample. *)
Definition pcm_value (sample_i : sample) : number :=
  let s := Math_max (of_Z (-1)) (Math_min (of_Z 1) sample_i) in
  if num_ltb s (of_Z 0) then num_mul s (of_Z 32768) else num_mul s (of_Z 32767).

(** The sample loop: [offset] advances by 2 per sample. *)
Fixpoint write_samples (view : ArrayBuffer) (offset : nat)
    (samples : Float32Array) : completion ArrayBuffer :=
  match samples with
  | [] => Returned view
  | sample_i :: rest =>
      view' <- setInt16 view offset (pcm_value sample_i) ;;
      write_samples view' (offset + 2) rest
  end.

Definition createWavBlob (samples : Float32Array) (sampleRate : number)
  : completion Blob :=
  let bytesPerSample := 2 in
  let blockAlign := bytesPerSample in
  let byteRate := num_mul sampleRate (of_nat blockAlign) in
  let dataSize := length samples * bytesPerSample in
  let view := new_ArrayBuffer (44 + dataSize) in
  view <- writeString view 0 "RIFF" ;;
  view <- setUint32 view 4 (of_nat (36 + dataSize)) ;;
  view <- writeString view 8 "WAVE" ;;
  view <- writeString view 12 "fmt " ;;
  view <- setUint32 view 16 (of_Z 16) ;;
  view <- setUint16 view 20 (of_Z 1) ;;
  view <- setUint16 view 22 (of_Z 1) ;;
  view <- setUint32 view 24 sampleRate ;;
  view <- setUint32 view 28 byteRate ;;
  view <- setUint16 view 32 (of_nat blockAlign) ;;
  view <- setUint16 view 34 (of_Z 16) ;;
  view <- writeString view 36 "data" ;;
  view <- setUint32 view 40 (of_nat dataSize) ;;
  view <- write_samples view 44 samples ;;
  Returned (mkBlob view "audio/wav").

(** The bytes a tag is stored as, and the 44 header bytes and the payload
    bytes of the encoding of [n] samples. *)
Definition tag_bytes (str : string) : list byte :=
  flat_map (fun c => le_bytes 1 (ToUint 8 (charCode c)))
           (list_ascii_of_string str).

Definition wav_header (n : nat) (sampleRate : number) : list byte :=
  tag_bytes "RIFF"
  ++ le_bytes 4 (ToUint 32 (of_nat (36 + n * 2)))
  ++ tag_bytes "WAVE"
  ++ tag_bytes "fmt "
  ++ le_bytes 4 (ToUint 32 (of_Z 16))
  ++ le_bytes 2 (ToUint 16 (of_Z 1))
  ++ le_bytes 2 (ToUint 16 (of_Z 1))
  ++ le_bytes 4 (ToUint 32 sampleRate)
  ++ le_bytes 4 (ToUint 32 (num_mul sampleRate (of_nat 2)))
  ++ le_bytes 2 (ToUint 16 (of_nat 2))
  ++ le_bytes 2 (ToUint 16 (of_Z 16))
  ++ tag_bytes "data"
  ++ le_bytes 4 (ToUint 32 (of_nat (n * 2))).

Definition wav_payload (samples : Float32Array) : list byte :=
  flat_map (fun s => le_bytes 2 (ToUint 16 (pcm_value s))) samples.

(** The claim's reading of a payload sample: clamp a finite sample to
    [-1, 1], scale it by 32768 if negative and by 32767 otherwise, and keep
    the integer part. *)
Definition Qclamp (x : Q) : Q :=
  let m := if Qle_bool 1 x then 1%Q else x in
  if Qle_bool (-1) m then m else (-1)%Q.

Definition pcm_scaled (x : Q) : Q :=
  let c := Qclamp x in
  (if Qlt_bool c 0 then c * 32768 else c * 32767)%Q.

Definition pcm16 (x : Q) : Z := Qtrunc (pcm_scaled x).

(** The code of each character of a tag, as read with [getUint8]. *)
Definition tag_codes (str : string) : list Z :=
  map (fun c => Z.of_nat (nat_of_ascii c)) (list_ascii_of_string str).

(* ------------------------------------------------------------------ *)
(** ** Upload controller *)

Module UploadController.

(** Modelled from the spec: the class [SegmentUploadController]
    (hooks/segment-upload-controller.ts) is not among the sources; only its
    test and the hook that calls it are.  The definitions below follow the
    design document, section 4.5: a FIFO of pending uploads, at most two
    workers, a worker that pulls the next pending item and performs the
    upload call, removal on success or terminal failure, another attempt on
    the same item after a retryable failure, the [capture_error] gate when
    no session id is set, [resetQueue] and [dispose].  The event loop is
    modelled by events: a caller's method call, or the response to an
    outstanding upload call.  Time (the backoff delay) is not modelled. *)

Definition CONCURRENCY_LIMIT : nat := 2.

Record PendingUpload : Type := mkPending { seqNo : nat; attempt : nat }.

Inductive response : Type :=
| Success
| RetryableFailure     (* 5xx class, code api_error *)
| TerminalFailure.     (* 4xx class, code validation_error *)

Inductive error_code : Type :=
| capture_error
| validation_error.

Record t : Type := mk {
  sessionId : option string;
  disposed : bool;
  queue : list PendingUpload;      (* pending items, oldest first *)
  inFlight : list PendingUpload;   (* items held by a worker, oldest first *)
  attempted : list nat;            (* seqNo of every upload call made *)
  completed : list nat;            (* seqNo of every successful upload *)
  errors : list error_code;        (* codes passed to the error callback *)
  maxInFlight : nat                (* most upload calls outstanding at once *)
}.


(** Free workers pull pending items, oldest first, and call the transport. *)
Fixpoint start_workers (pending inflight : list PendingUpload)
    (calls : list nat) (most : nat)
  : list PendingUpload * list PendingUpload * list nat * nat :=
  match pending with
  | [] => ([], inflight, calls, most)
  | p :: rest =>
      if length inflight <? CONCURRENCY_LIMIT
      then start_workers rest (inflight ++ [p]) (calls ++ [seqNo p])
             (Nat.max most (S (length inflight)))
      else (pending, inflight, calls, most)
  end.

Definition pump (c : t) : t :=
  let '(q, fl, calls, most) :=
    start_workers (queue c) (inFlight c) (attempted c) (maxInFlight c) in
  mk (sessionId c) (disposed c) q fl calls (completed c) (errors c) most.

(** The oldest in-flight item with the given sequence number, and the
    others. *)
Fixpoint take_inflight (n : nat) (fl : list PendingUpload)
  : option (PendingUpload * list PendingUpload) :=
  match fl with
  | [] => None
  | p :: rest =>
      if seqNo p =? n then Some (p, rest)
      else match take_inflight n rest with
           | Some (x, rest') => Some (x, p :: rest')
           | None => None
           end
  end.

Inductive event : Type :=
| SetSessionId (id : option string)
| EnqueueSegment (n : nat)
| Respond (n : nat) (r : response)    (* the transport answers a call *)
| ResetQueue
| Dispose.

Definition step (c : t) (e : event) : t :=
  match e with
  | SetSessionId id =>
      mk id (disposed c) (queue c) (inFlight c) (attempted c) (completed c)
         (errors c) (maxInFlight c)
  | EnqueueSegment n =>
      if disposed c then c
      else match sessionId c with
           | None =>
               mk (sessionId c) (disposed c) (queue c) (inFlight c)
                  (attempted c) (completed c) (errors c ++ [capture_error])
                  (maxInFlight c)
           | Some _ =>
               pump (mk (sessionId c) (disposed c)
                       (queue c ++ [mkPending n 0]) (inFlight c)
                       (attempted c) (completed c) (errors c) (maxInFlight c))
           end
  | Respond n r =>
      match take_inflight n (inFlight c) with
      | None => c
      | Some (p, others) =>
          match r with
          | Success =>
              pump (mk (sessionId c) (disposed c) (queue c) others
                      (attempted c) (completed c ++ [n]) (errors c)
                      (maxInFlight c))
          | TerminalFailure =>
              pump (mk (sessionId c) (disposed c) (queue c) others
                      (attempted c) (completed c)
                      (errors c ++ [validation_error]) (maxInFlight c))
          | RetryableFailure =>
              mk (sessionId c) (disposed c) (queue c)
                 (others ++ [mkPending (seqNo p) (S (attempt p))])
                 (attempted c ++ [n]) (completed c) (errors c)
                 (Nat.max (maxInFlight c) (S (length others)))
          end
      end
  | ResetQueue =>
      mk (sessionId c) (disposed c) [] (inFlight c) (attempted c)
         (completed c) (errors c) (maxInFlight c)
  | Dispose =>
      mk (sessionId c) true (queue c) (inFlight c) (attempted c)
         (completed c) (errors c) (maxInFlight c)
  end.

Definition run (events : list event) (c : t) : t := fold_left step events c.



End UploadController.

(* ------------------------------------------------------------------ *)
(** ** Reference views of the accumulator and the segmenter *)

(** The accumulator seen as one flat list of samples: what each call does
    to the unconsumed samples. *)
Definition flat_apply (l : list sample) (o : SampleBuffer.op) : list sample :=
  match o with
  | SampleBuffer.Push d => l ++ d
  | SampleBuffer.Prepend d => d ++ l
  | SampleBuffer.Consume n => if length l <? n then l else skipn n l
  | SampleBuffer.Drain => []
  | SampleBuffer.Clear => []
  end.

(** How far one iteration of [drainSegments] moves the front of the buffer:
    [segmentSamples] are consumed and [samples.slice(segmentSamples -
    overlapSamples)] is put back; when the overlap exceeds the segment the
    start index of the slice is negative and counts from the end. *)
Definition advance (segmentSamples overlapSamples : nat) : nat :=
  if overlapSamples <=? segmentSamples
  then segmentSamples - overlapSamples
  else 2 * segmentSamples - overlapSamples.

(** Window [k] of a stream: [seg] samples starting at [k * adv]. *)
Definition window (seg adv : nat) (stream : list sample) (k : nat)
  : Float32Array :=
  firstn seg (skipn (k * adv) stream).

(** Windows [from], [from + 1], ..., [from + count - 1]. *)
Definition windows (seg adv : nat) (stream : list sample) (from count : nat)
  : list Float32Array :=
  map (window seg adv stream) (seq from count).

(** The number of full windows of a stream of [len] samples. *)
Definition segment_count (seg adv len : nat) : nat :=
  if len <? seg then 0 else (len - seg) / adv + 1.

(* ------------------------------------------------------------------ *)
(** ** The capture loop (pipeline/eval/src/tests/full-pipeline.test.ts)

    The test drives the capture code the way a recorder does: every chunk
    goes through the resampler; a non-empty result is pushed and the
    segmenter is run; at the end the resampler is flushed, its remainder
    is pushed the same way, the buffer is drained and the final segment is
    built from what is left.  [collectSegment] is modelled as appending the
    samples to the list of recorded segments. *)

Inductive outcome (A : Type) : Type :=
| Done (a : A)
| Failed (e : error)
| NoFuel.                  (* a [drainSegments] call was still looping *)

Arguments Done {A} a.
Arguments Failed {A} e.
Arguments NoFuel {A}.

(** [if (x.length > 0) { buffer.push(x); drainSegments(buffer, segmentSamples,
    overlapSamples, collectSegment) }] *)
Definition feed (fuel segmentSamples overlapSamples : nat) (x : Float32Array)
    (st : SampleBuffer.t * list Float32Array)
  : outcome (SampleBuffer.t * list Float32Array) :=
  let '(buffer, recorded) := st in
  if 0 <? length x then
    match drainSegments fuel (SampleBuffer.push x buffer)
            segmentSamples overlapSamples with
    | Finished (buffer', emitted) => Done (buffer', recorded ++ emitted)
    | Raised e => Failed e
    | OutOfFuel _ => NoFuel
    end
  else Done (buffer, recorded).

(** The same block for a sequence of already resampled chunks. *)
Fixpoint feed_all (fuel segmentSamples overlapSamples : nat)
    (xs : list Float32Array) (st : SampleBuffer.t * list Float32Array)
  : outcome (SampleBuffer.t * list Float32Array) :=
  match xs with
  | [] => Done st
  | x :: rest =>
      match feed fuel segmentSamples overlapSamples x st with
      | Done st' => feed_all fuel segmentSamples overlapSamples rest st'
      | Failed e => Failed e
      | NoFuel => NoFuel
      end
  end.

(** The [for] loop over the source chunks. *)
Fixpoint capture (fuel segmentSamples overlapSamples : nat)
    (chunks : list Float32Array) (resampler : StreamingResampler.t)
    (st : SampleBuffer.t * list Float32Array)
  : outcome (StreamingResampler.t * (SampleBuffer.t * list Float32Array)) :=
  match chunks with
  | [] => Done (resampler, st)
  | chunk :: rest =>
      match StreamingResampler.process chunk resampler with
      | Thrown e => Failed e
      | Returned (resampled, resampler') =>
          match feed fuel segmentSamples overlapSamples resampled st with
          | Done st' =>
              capture fuel segmentSamples overlapSamples rest resampler' st'
          | Failed e => Failed e
          | NoFuel => NoFuel
          end
      end
  end.

(** The whole audio-ingest stage: the recorded segments. *)
Definition run_pipeline (fuel segmentSamples overlapSamples minFinalSamples
                           : nat)
    (sourceRate targetRate : number) (chunks : list Float32Array)
  : outcome (list Float32Array) :=
  let resampler := StreamingResampler.constructor sourceRate targetRate in
  let buffer := SampleBuffer.empty in
  match capture fuel segmentSamples overlapSamples chunks resampler
          (buffer, []) with
  | Failed e => Failed e
  | NoFuel => NoFuel
  | Done (resampler1, st1) =>
      let '(remainder, _) := StreamingResampler.flush resampler1 in
      match feed fuel segmentSamples overlapSamples remainder st1 with
      | Failed e => Failed e
      | NoFuel => NoFuel
      | Done (buffer2, recorded) =>
          match SampleBuffer.drain buffer2 with
          | Thrown e => Failed e
          | Returned (leftover, _) =>
              match createFinalSegmentFromRemaining leftover minFinalSamples
                      segmentSamples with
              | Thrown e => Failed e
              | Returned None => Done recorded
              | Returned (Some tail) => Done (recorded ++ [tail])
              end
          end
      end
  end.

(** The final segment the pipeline records for a leftover shorter than a
    segment: none when it is below the minimum, else the leftover padded
    with zeros. *)
Definition padded_tail (segmentSamples minFinalSamples : nat)
    (leftover : list sample) : list Float32Array :=
  if length leftover <? minFinalSamples then []
  else [leftover ++ repeat (Fin 0) (segmentSamples - length leftover)].

(** What the segmenter has to have done once a stream has been fed: the
    buffer is well formed and holds the stream from the start of window
    [count] on, fewer than a segment, and the recorded segments are the
    [count] full windows. *)
Definition fed (seg adv : nat) (stream : list sample)
    (st : SampleBuffer.t * list Float32Array) : Prop :=
  let count := segment_count seg adv (length stream) in
  SampleBuffer.wf (fst st) /\
  SampleBuffer.contents (fst st) = skipn (count * adv) stream /\
  snd st = windows seg adv stream 0 count /\
  count * adv <= length stream /\
  (count = 0 \/ seg + (count - 1) * adv <= length stream) /\
  SampleBuffer.length (fst st) < seg.

(* ------------------------------------------------------------------ *)
(** ** Reading the resampler's output *)

(** A finite sample. *)
Definition finite (s : sample) : Prop :=
  match s with
  | Fin _ => True
  | _ => False
  end.

(** A finite sample between [lo] and [hi]. *)
Definition in_range (lo hi : Q) (s : sample) : Prop :=
  match s with
  | Fin x => (lo <= x /\ x <= hi)%Q
  | _ => False
  end.

(** Equality of numbers as values: rationals are compared by value, not by
    representation. *)
Definition num_eq (a b : number) : Prop :=
  match a, b with
  | Fin x, Fin y => (x == y)%Q
  | NaN, NaN | PosInf, PosInf | NegInf, NegInf => True
  | _, _ => False
  end.

(* ------------------------------------------------------------------ *)
(** ** Test fixtures that produce input for the capture code *)

(** [convertMp3BytesToSamples] (full-pipeline.test.ts): every byte of the
    [Buffer] becomes the sample [(byte - 128) / 128]. *)
Definition convertMp3BytesToSamples (buffer : list byte) : Float32Array :=
  map (fun b => num_div (num_sub (of_Z b) (of_Z 128)) (of_Z 128)) buffer.

(** [new ArrayBuffer(len)] for a [number]: ToIndex, as for typed arrays. *)
Definition ArrayBuffer_of_length (len : number) : completion ArrayBuffer :=
  match len with
  | NaN => Returned (new_ArrayBuffer 0)
  | PosInf | NegInf => Thrown RangeError
  | Fin x =>
      if (Qtrunc x <? 0)%Z then Thrown RangeError
      else Returned (new_ArrayBuffer (Z.to_nat (Qtrunc x)))
  end.

(** [createTestWavBuffer] (the transcribe tests): the header of a WAV file
    with the given format and a payload of zeros. *)
Definition createTestWavBuffer
    (sampleRate numChannels numSamples bitDepth : number)
  : completion ArrayBuffer :=
  let bytesPerSample := num_div bitDepth (of_Z 8) in
  let dataSize := num_mul (num_mul numSamples numChannels) bytesPerSample in
  view <- ArrayBuffer_of_length (num_add (of_Z 44) dataSize) ;;
  view <- writeString view 0 "RIFF" ;;
  view <- setUint32 view 4 (num_add (of_Z 36) dataSize) ;;
  view <- writeString view 8 "WAVE" ;;
  view <- writeString view 12 "fmt " ;;
  view <- setUint32 view 16 (of_Z 16) ;;
  view <- setUint16 view 20 (of_Z 1) ;;
  view <- setUint16 view 22 numChannels ;;
  view <- setUint32 view 24 sampleRate ;;
  view <- setUint32 view 28
            (num_mul (num_mul sampleRate numChannels) bytesPerSample) ;;
  view <- setUint16 view 32 (num_mul numChannels bytesPerSample) ;;
  view <- setUint16 view 34 bitDepth ;;
  view <- writeString view 36 "data" ;;
  view <- setUint32 view 40 dataSize ;;
  Returned view.
(* ================================================================== *)
(** * Properties *)

(** ** List and typed-array facts *)

Lemma firstn_plus (A : Type) (n m : nat) (l : list A) :
  firstn (n + m) l = firstn n l ++ firstn m (skipn n l).
Proof.
  revert l; induction n as [|n IH]; intros l; simpl.
  - reflexivity.
  - destruct l as [|x l]; simpl.
    + now rewrite firstn_nil.
    + now rewrite IH.
Qed.

Lemma skipn_plus (A : Type) (n m : nat) (l : list A) :
  skipn (n + m) l = skipn m (skipn n l).
Proof.
  revert l; induction n as [|n IH]; intros l; simpl.
  - reflexivity.
  - destruct l as [|x l]; simpl.
    + now rewrite skipn_nil.
    + apply IH.
Qed.

Lemma firstn_app_len (A : Type) (n : nat) (l1 l2 : list A) :
  length l1 = n -> firstn n (l1 ++ l2) = l1.
Proof.
  intros <-. now rewrite firstn_app, Nat.sub_diag, firstn_O, app_nil_r, firstn_all.
Qed.

Lemma skipn_app_len (A : Type) (n k : nat) (l1 l2 : list A) :
  length l1 = n -> skipn (n + k) (l1 ++ l2) = skipn k l2.
Proof.
  intros <-. rewrite skipn_plus, skipn_app, Nat.sub_diag, skipn_all. reflexivity.
Qed.

Lemma skipn_repeat_sub (A : Type) (x : A) (n m : nat) :
  skipn n (repeat x m) = repeat x (m - n).
Proof.
  revert m; induction n as [|n IH]; intros m; simpl.
  - now rewrite Nat.sub_0_r.
  - destruct m as [|m]; simpl; [reflexivity | apply IH].
Qed.

Lemma skipn_nil_length (A : Type) (n : nat) (l : list A) :
  skipn n l = [] -> length l <= n.
Proof.
  intros H. assert (E := length_skipn n l). rewrite H in E. simpl in E. lia.
Qed.

Lemma typed_set_fits (dst src : Float32Array) (k : nat) :
  k + length src <= length dst ->
  typed_set dst src k
  = Returned (firstn k dst ++ src ++ skipn (k + length src) dst).
Proof.
  intros H. unfold typed_set.
  destruct (Nat.ltb_spec (length dst) (k + length src)); [lia | reflexivity].
Qed.

Lemma new_Float32Array_length (n : nat) : length (new_Float32Array n) = n.
Proof. apply repeat_length. Qed.

(** ** SampleBuffer.consume *)

Section ConsumeLoop.

Import SampleBuffer.

(** [c0]: the unconsumed samples when [consume count] was called. *)
Variable c0 : list sample.
Variable count : nat.
Hypothesis count_le : count <= List.length c0.

Local Abbreviation consume_inv := (SampleBuffer.consume_inv c0 count).
Local Abbreviation consume_measure := (SampleBuffer.consume_measure count).

Lemma consume_body_inv (st : consume_state) :
  consume_inv st ->
  consume_guard count st = true ->
  exists st',
    consume_body count st = Returned st' /\
    consume_inv st' /\
    (List.length (cs_chunks st') < List.length (cs_chunks st)
     \/ cs_copied st' = count) /\
    (nonempty_runs (cs_chunks st) -> nonempty_runs (cs_chunks st')).
Proof.
  destruct st as [cs result copied].
  intros (Hlen & Hle & Hpre & Hrest) Hg.
  unfold consume_guard in Hg; simpl in *.
  apply andb_true_iff in Hg as [Hlt Hne].
  apply Nat.ltb_lt in Hlt.
  destruct cs as [|c rest]; [discriminate|].
  unfold consume_body; simpl.
  set (S0 := skipn (offset c) (data c)) in *.
  assert (Hav : List.length (data c) - offset c = List.length S0)
    by (unfold S0; now rewrite length_skipn).
  rewrite Hav.
  set (toCopy := Nat.min (List.length S0) (count - copied)).
  assert (HtA : toCopy <= List.length S0) by (unfold toCopy; lia).
  assert (HtC : toCopy <= count - copied) by (unfold toCopy; lia).
  change (samples_of (c :: rest)) with (S0 ++ samples_of rest) in Hrest.
  destruct (Nat.ltb_spec 0 toCopy) as [Hpos|Hzero].
  - (* some samples are copied *)
    unfold subarray.
    replace (offset c + toCopy - offset c) with toCopy by lia.
    fold S0.
    assert (Hpl : List.length (firstn toCopy S0) = toCopy)
      by (rewrite length_firstn; lia).
    rewrite typed_set_fits by (rewrite Hpl; lia).
    rewrite Hpl. simpl.
    assert (Hpiece : firstn toCopy S0 = firstn toCopy (skipn copied c0)).
    { rewrite <- Hrest, firstn_app.
      replace (toCopy - List.length S0) with 0 by lia.
      now rewrite firstn_O, app_nil_r. }
    assert (Hinv' : forall cs',
               samples_of cs' = skipn (copied + toCopy) c0 ->
               SampleBuffer.consume_inv c0 count (mkCS cs'
                 (firstn copied result ++ firstn toCopy S0
                    ++ skipn (copied + toCopy) result)
                 (copied + toCopy))).
    { intros cs' Hcs'. unfold SampleBuffer.consume_inv; simpl. repeat split.
      - rewrite !length_app, length_firstn, Hpl, length_skipn. lia.
      - lia.
      - rewrite firstn_plus.
        assert (Hf : List.length (firstn copied result) = copied)
          by (rewrite length_firstn; lia).
        rewrite firstn_app, Hf, Nat.sub_diag, firstn_O, app_nil_r.
        rewrite <- Hf at 1. rewrite firstn_all.
        rewrite <- Hf at 2. rewrite skipn_app, Nat.sub_diag.
        rewrite skipn_all. simpl.
        rewrite firstn_app, Hpl, Nat.sub_diag, firstn_O, app_nil_r.
        rewrite <- Hpl at 1. rewrite firstn_all.
        now rewrite firstn_plus, Hpre, Hpiece.
      - exact Hcs'. }
    destruct (Nat.leb_spec (List.length (data c)) (offset c + toCopy)) as [Hex|Hkeep].
    + (* the run is exhausted and shifted *)
      assert (HtE : toCopy = List.length S0) by lia.
      eexists; split; [reflexivity|]. split; [|split].
      * apply Hinv'.
        rewrite skipn_plus, <- Hrest, skipn_app, HtE, Nat.sub_diag.
        now rewrite skipn_all.
      * left; simpl; lia.
      * intros HF; simpl. now inversion HF.
    + (* the run keeps samples: the request is complete *)
      assert (HtE : toCopy = count - copied) by lia.
      eexists; split; [reflexivity|]. split; [|split].
      * apply Hinv'.
        rewrite skipn_plus, <- Hrest, skipn_app.
        replace (toCopy - List.length S0) with 0 by lia.
        change (samples_of (mkChunk (data c) (offset c + toCopy) :: rest))
          with (skipn (offset c + toCopy) (data c) ++ samples_of rest).
        unfold S0. now rewrite <- skipn_plus.
      * right; simpl; lia.
      * intros HF; simpl. inversion HF; subst.
        constructor; [simpl; lia | assumption].
  - (* an empty run at the front is dropped *)
    assert (HS0 : S0 = []) by (apply length_zero_iff_nil; lia).
    eexists; split; [reflexivity|]. split; [|split].
    + unfold SampleBuffer.consume_inv; simpl. repeat split; try assumption.
      now rewrite <- Hrest, HS0.
    + left; simpl; lia.
    + intros HF; simpl. now inversion HF.
Qed.

Lemma consume_loop_exits (fuel : nat) (st : consume_state) :
  consume_inv st ->
  consume_measure st <= fuel ->
  exists st',
    consume_loop fuel count st = Returned st' /\
    consume_inv st' /\
    consume_guard count st' = false /\
    (nonempty_runs (cs_chunks st) -> nonempty_runs (cs_chunks st')).
Proof.
  revert st; induction fuel as [|fuel IH]; intros st Hinv Hm.
  - exists st. split; [reflexivity|]. split; [assumption|]. split; [|auto].
    unfold SampleBuffer.consume_measure in Hm. unfold consume_guard.
    destruct (cs_copied st <? count); [lia | reflexivity].
  - simpl. destruct (consume_guard count st) eqn:Hg.
    + destruct (consume_body_inv Hinv Hg) as (st1 & Hb & Hinv1 & Hdec & HF1).
      rewrite Hb; simpl.
      destruct (IH st1 Hinv1) as (st' & Hl & Hinv' & Hg' & HF').
      { unfold SampleBuffer.consume_measure in *.
        unfold consume_guard in Hg. apply andb_true_iff in Hg as [Hlt _].
        rewrite Hlt in Hm.
        destruct (Nat.ltb_spec (cs_copied st1) count); lia. }
      exists st'. split; [assumption|]. split; [assumption|].
      split; [assumption|auto].
    + exists st. split; [reflexivity|]. split; [assumption|]. split; auto.
Qed.

End ConsumeLoop.

(** [consume(count)] on a buffer whose cached total is right: the request
    is refused exactly when it exceeds the total; otherwise the first
    [count] unconsumed samples are returned and removed. *)
Lemma consume_spec (count : nat) (b : SampleBuffer.t) :
  SampleBuffer.totalLength b = length (SampleBuffer.contents b) ->
  (SampleBuffer.totalLength b < count ->
   SampleBuffer.consume count b = Thrown InsufficientSamples) /\
  (count <= SampleBuffer.totalLength b ->
   exists b',
     SampleBuffer.consume count b
     = Returned (firstn count (SampleBuffer.contents b), b') /\
     SampleBuffer.contents b' = skipn count (SampleBuffer.contents b) /\
     SampleBuffer.totalLength b' = SampleBuffer.totalLength b - count /\
     (SampleBuffer.nonempty_runs (SampleBuffer.chunks b) ->
      SampleBuffer.nonempty_runs (SampleBuffer.chunks b'))).
Proof.
  intros Htot. unfold SampleBuffer.consume. split; intros H.
  - destruct (Nat.ltb_spec (SampleBuffer.totalLength b) count); [reflexivity | lia].
  - destruct (Nat.ltb_spec (SampleBuffer.totalLength b) count); [lia|].
    set (st0 := SampleBuffer.mkCS (SampleBuffer.chunks b) (new_Float32Array count) 0).
    assert (Hc : count <= length (SampleBuffer.contents b)) by lia.
    assert (Hinv0 : SampleBuffer.consume_inv (SampleBuffer.contents b) count st0).
    { unfold SampleBuffer.consume_inv, st0; simpl. repeat split.
      - apply new_Float32Array_length.
      - lia. }
    destruct (@consume_loop_exits (SampleBuffer.contents b) count Hc
                (S (length (SampleBuffer.chunks b))) st0 Hinv0)
      as (st' & Hl & (Hlen & Hle & Hpre & Hrest) & Hg & HF).
    { unfold SampleBuffer.consume_measure, st0; simpl.
      destruct (0 <? count); lia. }
    rewrite Hl; simpl.
    assert (Hcop : SampleBuffer.cs_copied st' = count).
    { unfold SampleBuffer.consume_guard in Hg.
      apply andb_false_iff in Hg as [Hg|Hg].
      - apply Nat.ltb_ge in Hg. lia.
      - apply Nat.ltb_ge in Hg.
        assert (Hnil : SampleBuffer.cs_chunks st' = [])
          by (apply length_zero_iff_nil; lia).
        rewrite Hnil in Hrest. simpl in Hrest. symmetry in Hrest.
        apply skipn_nil_length in Hrest. lia. }
    rewrite Hcop in *.
    assert (Hres : SampleBuffer.cs_result st'
                   = firstn count (SampleBuffer.contents b)).
    { rewrite <- Hpre, <- Hlen. apply eq_sym, firstn_all. }
    exists (SampleBuffer.mk (SampleBuffer.cs_chunks st')
              (SampleBuffer.totalLength b - count)).
    rewrite Hres. repeat split.
    + exact Hrest.
    + exact HF.
Qed.

(** ** SampleBuffer.drain *)

Lemma drain_loop_spec (cs : list SampleBuffer.chunk) :
  forall (result : Float32Array) (off : nat),
    off + length (SampleBuffer.samples_of cs) <= length result ->
    SampleBuffer.drain_loop cs result off
    = Returned (firstn off result ++ SampleBuffer.samples_of cs
                  ++ skipn (off + length (SampleBuffer.samples_of cs)) result).
Proof.
  induction cs as [|c rest IH]; intros result off Hfit; simpl in *.
  - now rewrite Nat.add_0_r, firstn_skipn.
  - unfold subarray_from.
    set (S0 := skipn (SampleBuffer.offset c) (SampleBuffer.data c)) in *.
    rewrite length_app in Hfit.
    rewrite typed_set_fits by lia. simpl.
    assert (Hf : length (firstn off result ++ S0) = off + length S0)
      by (rewrite length_app, length_firstn; lia).
    rewrite IH.
    + rewrite (app_assoc (firstn off result) S0).
      rewrite (@firstn_app_len _ _ _ _ Hf).
      rewrite (@skipn_app_len _ _ _ _ _ Hf).
      rewrite <- skipn_plus, length_app, <- !app_assoc, Nat.add_assoc.
      reflexivity.
    + rewrite !length_app, length_firstn, length_skipn. lia.
Qed.

(** [drain()] returns every unconsumed sample and leaves nothing behind. *)
Lemma drain_spec (b : SampleBuffer.t) :
  SampleBuffer.totalLength b = length (SampleBuffer.contents b) ->
  exists b',
    SampleBuffer.drain b = Returned (SampleBuffer.contents b, b') /\
    SampleBuffer.contents b' = [] /\
    SampleBuffer.totalLength b' = 0 /\
    (SampleBuffer.nonempty_runs (SampleBuffer.chunks b) ->
     SampleBuffer.chunks b' = []).
Proof.
  intros Htot. unfold SampleBuffer.drain.
  destruct (Nat.eqb_spec (SampleBuffer.totalLength b) 0) as [Hz|Hnz].
  - assert (Hnil : SampleBuffer.contents b = [])
      by (apply length_zero_iff_nil; lia).
    exists b. rewrite Hnil. repeat split; auto.
    intros HF. destruct b as [[|c rest] n]; simpl in *; [reflexivity|].
    inversion HF; subst. unfold SampleBuffer.contents in Hnil; simpl in Hnil.
    apply (f_equal (@length sample)) in Hnil.
    rewrite length_app, length_skipn in Hnil. simpl in Hnil. lia.
  - exists (SampleBuffer.mk [] 0).
    rewrite drain_loop_spec
      by (rewrite new_Float32Array_length; fold (SampleBuffer.contents b); lia).
    simpl. fold (SampleBuffer.contents b).
    rewrite skipn_all2 by (rewrite new_Float32Array_length; lia).
    rewrite app_nil_r. repeat split; auto.
Qed.

(** ** The class invariant *)

Lemma samples_of_app (cs1 cs2 : list SampleBuffer.chunk) :
  SampleBuffer.samples_of (cs1 ++ cs2)
  = SampleBuffer.samples_of cs1 ++ SampleBuffer.samples_of cs2.
Proof. apply flat_map_app. Qed.

Lemma wf_empty : SampleBuffer.wf SampleBuffer.empty.
Proof. split; [reflexivity | constructor]. Qed.

Lemma push_contents (d : Float32Array) (b : SampleBuffer.t) :
  SampleBuffer.contents (SampleBuffer.push d b) = SampleBuffer.contents b ++ d.
Proof.
  unfold SampleBuffer.push. destruct (Nat.eqb_spec (length d) 0) as [Hz|Hnz].
  - apply length_zero_iff_nil in Hz. subst. now rewrite app_nil_r.
  - unfold SampleBuffer.contents; simpl.
    rewrite samples_of_app; simpl. now rewrite app_nil_r.
Qed.

Lemma prepend_contents (d : Float32Array) (b : SampleBuffer.t) :
  SampleBuffer.contents (SampleBuffer.prepend d b) = d ++ SampleBuffer.contents b.
Proof.
  unfold SampleBuffer.prepend. destruct (Nat.eqb_spec (length d) 0) as [Hz|Hnz].
  - apply length_zero_iff_nil in Hz. now subst.
  - reflexivity.
Qed.

Lemma wf_push (d : Float32Array) (b : SampleBuffer.t) :
  SampleBuffer.wf b -> SampleBuffer.wf (SampleBuffer.push d b).
Proof.
  intros [Ht HF]. split.
  - rewrite push_contents, length_app, <- Ht.
    unfold SampleBuffer.push.
    destruct (Nat.eqb_spec (length d) 0); simpl; lia.
  - unfold SampleBuffer.push.
    destruct (Nat.eqb_spec (length d) 0); simpl; [assumption|].
    apply Forall_app; split; [assumption|].
    constructor; [simpl; lia | constructor].
Qed.

Lemma wf_prepend (d : Float32Array) (b : SampleBuffer.t) :
  SampleBuffer.wf b -> SampleBuffer.wf (SampleBuffer.prepend d b).
Proof.
  intros [Ht HF]. split.
  - rewrite prepend_contents, length_app, <- Ht.
    unfold SampleBuffer.prepend.
    destruct (Nat.eqb_spec (length d) 0); simpl; lia.
  - unfold SampleBuffer.prepend.
    destruct (Nat.eqb_spec (length d) 0); simpl; [assumption|].
    constructor; [simpl; lia | assumption].
Qed.

Lemma wf_apply (b : SampleBuffer.t) (o : SampleBuffer.op) :
  SampleBuffer.wf b -> SampleBuffer.wf (SampleBuffer.apply b o).
Proof.
  intros Hwf. destruct o as [d|d|n| |]; simpl.
  - now apply wf_push.
  - now apply wf_prepend.
  - destruct Hwf as [Ht HF].
    destruct (consume_spec n b Ht) as [Hfail Hok].
    destruct (Nat.lt_ge_cases (SampleBuffer.totalLength b) n) as [Hlt|Hge].
    + rewrite (Hfail Hlt). now split.
    + destruct (Hok Hge) as (b' & Hc & Hcont & Htot & HF').
      rewrite Hc. split; [|auto].
      rewrite Htot, Hcont, length_skipn. lia.
  - destruct Hwf as [Ht HF].
    destruct (drain_spec b Ht) as (b' & Hd & Hcont & Htot & Hch).
    rewrite Hd. split.
    + now rewrite Htot, Hcont.
    + rewrite (Hch HF). constructor.
  - apply wf_empty.
Qed.

Lemma wf_fold (ops : list SampleBuffer.op) :
  forall b, SampleBuffer.wf b ->
            SampleBuffer.wf (fold_left SampleBuffer.apply ops b).
Proof.
  induction ops as [|o ops IH]; intros b Hwf; simpl.
  - assumption.
  - apply IH, wf_apply, Hwf.
Qed.

Lemma wf_run (ops : list SampleBuffer.op) : SampleBuffer.wf (SampleBuffer.run ops).
Proof. apply wf_fold, wf_empty. Qed.

Lemma unconsumed_samples (b : SampleBuffer.t) :
  SampleBuffer.nonempty_runs (SampleBuffer.chunks b) ->
  SampleBuffer.unconsumed b = Z.of_nat (length (SampleBuffer.contents b)).
Proof.
  unfold SampleBuffer.unconsumed, SampleBuffer.contents.
  induction 1 as [|c rest Hc HF IH]; simpl.
  - reflexivity.
  - rewrite IH, length_app, length_skipn. lia.
Qed.

(** ** drainSegments *)

Lemma slice_nonneg (a : Float32Array) (n m : nat) :
  m <= n -> slice a (Z.of_nat n - Z.of_nat m) = skipn (n - m) a.
Proof.
  intros H. unfold slice.
  destruct (Z.ltb_spec (Z.of_nat n - Z.of_nat m) 0); [lia|].
  f_equal. lia.
Qed.

(** One iteration when the overlap does not exceed the segment: the first
    [segmentSamples] samples are emitted and the buffer advances by
    [segmentSamples - overlapSamples]. *)
Lemma drainSegments_body_spec (seg ov : nat) (b : SampleBuffer.t)
    (emitted : list Float32Array) :
  SampleBuffer.wf b ->
  seg <= SampleBuffer.length b ->
  ov <= seg ->
  exists b',
    drainSegments_body seg ov (b, emitted)
    = Returned (b', emitted ++ [firstn seg (SampleBuffer.contents b)]) /\
    SampleBuffer.wf b' /\
    SampleBuffer.contents b' = skipn (seg - ov) (SampleBuffer.contents b) /\
    SampleBuffer.length b' + (seg - ov) = SampleBuffer.length b.
Proof.
  intros [Ht HF] Hseg Hov. unfold SampleBuffer.length in *.
  destruct (consume_spec seg b Ht) as [_ Hok].
  destruct (Hok Hseg) as (b1 & Hc & Hcont & Htot & HF1).
  assert (Hwf1 : SampleBuffer.wf b1).
  { split; [|auto]. rewrite Htot, Hcont, length_skipn. lia. }
  set (samples := firstn seg (SampleBuffer.contents b)) in *.
  assert (Hsl : length samples = seg)
    by (unfold samples; rewrite length_firstn; lia).
  unfold drainSegments_body. rewrite Hc. simpl.
  rewrite slice_nonneg by assumption.
  assert (Hadv : skipn (seg - ov) samples ++ SampleBuffer.contents b1
                 = skipn (seg - ov) (SampleBuffer.contents b)).
  { rewrite Hcont.
    rewrite <- (firstn_skipn seg (SampleBuffer.contents b)) at 2.
    fold samples. rewrite skipn_app.
    replace (seg - ov - length samples) with 0 by lia. reflexivity. }
  destruct (Nat.ltb_spec 0 ov) as [Hpos|Hzero].
  - eexists; split; [reflexivity|]. split; [|split].
    + now apply wf_prepend.
    + now rewrite prepend_contents.
    + destruct (wf_prepend (skipn (seg - ov) samples) Hwf1) as [Ht2 _].
      rewrite Ht2, prepend_contents, length_app, length_skipn, Hsl.
      destruct Hwf1 as [Ht1 _]. rewrite <- Ht1, Htot. lia.
  - assert (ov = 0) by lia; subst ov.
    exists b1; split; [reflexivity|]. split; [|split].
    + assumption.
    + rewrite <- Hadv. rewrite skipn_all2 by lia. reflexivity.
    + lia.
Qed.

Lemma drainSegments_body_inv (seg ov : nat) (st : drain_state) :
  drain_inv seg ov st ->
  seg <= SampleBuffer.length (fst st) ->
  ov <= seg ->
  exists st',
    drainSegments_body seg ov st = Returned st' /\
    drain_inv seg ov st' /\
    SampleBuffer.length (fst st') + (seg - ov) = SampleBuffer.length (fst st).
Proof.
  destruct st as [b emitted]; unfold drain_inv at 1; simpl.
  intros (Hwf & Hfull & Hchain & Hseed) Hseg Hov.
  destruct (drainSegments_body_spec emitted Hwf Hseg Hov)
    as (b' & Hb & Hwf' & Hcont & Hlen).
  exists (b', emitted ++ [firstn seg (SampleBuffer.contents b)]).
  split; [assumption|]. split; [|assumption].
  set (samples := firstn seg (SampleBuffer.contents b)) in *.
  assert (Hsl : length samples = seg).
  { unfold samples. rewrite length_firstn.
    destruct Hwf as [Ht _]. unfold SampleBuffer.length in Hseg. lia. }
  unfold drain_inv; simpl. split; [assumption|]. split; [|split].
  - apply Forall_app; split; [assumption|]. now constructor.
  - intros k s1 s2 H1 H2.
    destruct (Nat.lt_ge_cases (S k) (length emitted)) as [Hin|Hout].
    + rewrite nth_error_app1 in H1 by lia.
      rewrite nth_error_app1 in H2 by lia.
      eapply Hchain; eassumption.
    + assert (Hk : S k = length emitted).
      { assert (S k < length (emitted ++ [samples]))
          by (apply nth_error_Some; congruence).
        rewrite length_app in *; simpl in *; lia. }
      rewrite nth_error_app1 in H1 by lia.
      rewrite nth_error_app2, Hk, Nat.sub_diag in H2 by lia.
      injection H2 as <-.
      rewrite <- (Hseed k s1 H1 Hk).
      unfold samples. rewrite firstn_firstn. f_equal. lia.
  - intros k s1 H1 Hk. rewrite length_app in Hk; simpl in Hk.
    rewrite nth_error_app2 in H1 by lia.
    replace (k - length emitted) with 0 in H1 by lia.
    injection H1 as <-.
    rewrite Hcont. unfold lastn. rewrite Hsl.
    unfold samples.
    rewrite <- (firstn_skipn seg (SampleBuffer.contents b)) at 1.
    fold samples. rewrite skipn_app.
    replace (seg - ov - length samples) with 0 by lia. simpl.
    apply firstn_app_len. rewrite length_skipn. lia.
Qed.

Lemma drain_inv_init (seg ov : nat) (b : SampleBuffer.t) :
  SampleBuffer.wf b -> drain_inv seg ov (b, []).
Proof.
  intros Hwf. unfold drain_inv; simpl.
  split; [assumption|]. split; [constructor|]. split.
  - intros k s1 s2 H. destruct k; discriminate.
  - intros k s1 H. destruct k; discriminate.
Qed.

(** The loop never raises, and whatever the bound on the iterations, the
    state it stops in satisfies the invariant. *)
Lemma drainSegments_loop_inv (seg ov : nat) :
  ov <= seg ->
  forall (fuel : nat) (st : drain_state),
    drain_inv seg ov st ->
    exists st',
      (drainSegments_loop fuel seg ov st = Finished st'
       \/ drainSegments_loop fuel seg ov st = OutOfFuel st') /\
      drain_inv seg ov st'.
Proof.
  intros Hov. induction fuel as [|fuel IH]; intros st Hinv; simpl.
  - destruct (seg <=? SampleBuffer.length (fst st)); exists st; auto.
  - destruct (Nat.leb_spec seg (SampleBuffer.length (fst st))) as [Hseg|Hlt].
    + destruct (drainSegments_body_inv Hinv Hseg Hov) as (st1 & Hb & Hinv1 & _).
      rewrite Hb. apply IH, Hinv1.
    + exists st; auto.
Qed.

(** With an overlap shorter than the segment the loop reaches its exit
    within [length buffer] iterations. *)
Lemma drainSegments_loop_terminates (seg ov : nat) :
  ov < seg ->
  forall (fuel : nat) (st : drain_state),
    drain_inv seg ov st ->
    SampleBuffer.length (fst st) <= fuel ->
    exists st',
      drainSegments_loop fuel seg ov st = Finished st' /\
      drain_inv seg ov st' /\
      SampleBuffer.length (fst st') < seg.
Proof.
  intros Hov. induction fuel as [|fuel IH]; intros st Hinv Hfuel; simpl.
  - destruct (Nat.leb_spec seg (SampleBuffer.length (fst st))); [lia|].
    exists st; auto.
  - destruct (Nat.leb_spec seg (SampleBuffer.length (fst st))) as [Hseg|Hlt].
    + destruct (@drainSegments_body_inv seg ov st Hinv Hseg)
        as (st1 & Hb & Hinv1 & Hlen); [lia|].
      rewrite Hb. apply IH; [assumption | lia].
    + exists st; auto.
Qed.

(** With an overlap equal to the segment every iteration gives back what it
    took: the guard holds after any number of iterations. *)
Lemma drainSegments_loop_diverges (seg : nat) :
  forall (fuel : nat) (st : drain_state),
    drain_inv seg seg st ->
    seg <= SampleBuffer.length (fst st) ->
    exists st',
      drainSegments_loop fuel seg seg st = OutOfFuel st' /\
      SampleBuffer.length (fst st') = SampleBuffer.length (fst st) /\
      length (snd st') = length (snd st) + fuel.
Proof.
  induction fuel as [|fuel IH]; intros st Hinv Hseg; simpl.
  - destruct (Nat.leb_spec seg (SampleBuffer.length (fst st))); [|lia].
    exists st; repeat split; lia.
  - destruct (Nat.leb_spec seg (SampleBuffer.length (fst st))); [|lia].
    destruct (@drainSegments_body_inv seg seg st Hinv Hseg)
      as (st1 & Hb & Hinv1 & Hlen); [lia|].
    rewrite Hb.
    assert (Hemit : length (snd st1) = S (length (snd st))).
    { destruct st as [b emitted]. destruct Hinv as (Hwf & _).
      simpl in Hwf, Hseg.
      destruct (drainSegments_body_spec emitted Hwf Hseg (Nat.le_refl seg))
        as (b' & Hb' & _).
      rewrite Hb' in Hb. injection Hb as <-. simpl.
      rewrite length_app; simpl; lia. }
    destruct (IH st1 Hinv1) as (st' & Hl & Hlen' & Hem'); [lia|].
    exists st'. repeat split; [assumption | lia | lia].
Qed.

(** ** createFinalSegmentFromRemaining *)

Lemma createFinalSegment_spec (remaining : Float32Array) (minS seg : nat) :
  (length remaining < minS ->
   createFinalSegmentFromRemaining remaining minS seg = Returned None) /\
  (minS <= length remaining ->
   createFinalSegmentFromRemaining remaining minS seg
   = Returned (Some (firstn (Nat.min (length remaining) seg) remaining
                       ++ repeat (Fin 0) (seg - Nat.min (length remaining) seg)))).
Proof.
  unfold createFinalSegmentFromRemaining. split; intros H.
  - destruct (Nat.ltb_spec (length remaining) minS); [reflexivity | lia].
  - destruct (Nat.ltb_spec (length remaining) minS); [lia|].
    unfold subarray. rewrite Nat.sub_0_r. simpl skipn.
    set (m := Nat.min seg (length remaining)).
    assert (Hm : length (firstn m remaining) = m)
      by (rewrite length_firstn; unfold m; lia).
    rewrite typed_set_fits
      by (rewrite new_Float32Array_length, Hm; unfold m; lia).
    simpl. rewrite Hm. unfold new_Float32Array.
    rewrite skipn_repeat_sub. rewrite (Nat.min_comm (length remaining) seg).
    reflexivity.
Qed.

(** ** Numbers *)

Lemma Qtrunc_inject (z : Z) : Qtrunc (inject_Z z) = z.
Proof.
  unfold Qtrunc. destruct (Qle_bool 0 (inject_Z z));
    [apply Qfloor_Z | apply Qceiling_Z].
Qed.

Lemma Qle_bool_inject (a b : Z) :
  Qle_bool (inject_Z a) (inject_Z b) = (a <=? b)%Z.
Proof. unfold Qle_bool; simpl. now rewrite !Z.mul_1_r. Qed.

Lemma Qlt_bool_inject (a b : Z) :
  Qlt_bool (inject_Z a) (inject_Z b) = (a <? b)%Z.
Proof. unfold Qlt_bool. now rewrite Qle_bool_inject, Z.ltb_antisym. Qed.

Lemma Qlt_bool_iff (x y : Q) : Qlt_bool x y = true <-> (x < y)%Q.
Proof.
  unfold Qlt_bool. rewrite negb_true_iff. split.
  - intros H. apply Qnot_le_lt. intros Hle.
    apply Qle_bool_iff in Hle. congruence.
  - intros H. destruct (Qle_bool y x) eqn:E; [|reflexivity].
    apply Qle_bool_iff in E. exfalso. eapply Qlt_not_le; eassumption.
Qed.

Lemma Qeq_bool_pos_false (q : Q) : (0 < q)%Q -> Qeq_bool q 0 = false.
Proof.
  intros H. destruct (Qeq_bool q 0) eqn:E; [|reflexivity].
  apply Qeq_bool_iff in E. rewrite E in H. discriminate.
Qed.

Lemma num_div_fin (x y : Q) :
  Qeq_bool y 0 = false -> num_div (Fin x) (Fin y) = Fin (x / y).
Proof. intros H. unfold num_div. now rewrite H. Qed.

Lemma num_leb_of_Z (a b : Z) : num_leb (of_Z a) (of_Z b) = (a <=? b)%Z.
Proof. apply Qle_bool_inject. Qed.

Lemma num_ltb_of_Z (a b : Z) : num_ltb (of_Z a) (of_Z b) = (a <? b)%Z.
Proof. apply Qlt_bool_inject. Qed.

(** [a - b > 0] for integers. *)
Lemma num_gtb_sub_of_Z (a b : Z) :
  num_gtb (num_sub (of_Z a) (of_Z b)) (of_Z 0) = (b <? a)%Z.
Proof.
  unfold num_gtb, num_sub, of_Z, num_neg, num_add, num_ltb.
  rewrite <- inject_Z_opp, <- inject_Z_plus, Qlt_bool_inject.
  destruct (Z.ltb_spec 0 (a + - b)); destruct (Z.ltb_spec b a); lia || reflexivity.
Qed.

Lemma Float32Array_of_length_of_Z (n : Z) :
  (0 <= n)%Z ->
  Float32Array_of_length (of_Z n) = Returned (new_Float32Array (Z.to_nat n)).
Proof.
  intros H. unfold Float32Array_of_length, of_Z. rewrite Qtrunc_inject.
  destruct (Z.ltb_spec n 0); [lia | reflexivity].
Qed.

(** ** StreamingResampler *)


Section ResamplerRatio.

Import StreamingResampler.

(** A finite positive ratio, as the constructor computes from finite rates
    of the same sign. *)
Variable q : Q.
Hypothesis q_pos : (0 < q)%Q.

Lemma floor_div_nonneg (len : Z) :
  (0 <= len)%Z -> (0 <= Qfloor (inject_Z len / q))%Z.
Proof.
  intros H. rewrite <- (Qfloor_Z 0). apply Qfloor_resp_le.
  apply Qle_shift_div_l; [assumption|].
  rewrite Qmult_0_l. change 0%Q with (inject_Z 0). now rewrite <- Zle_Qle.
Qed.

(** [floor(floor(len / q) * q)] lies between 0 and [len]. *)
Lemma floor_mul_bounds (len : Z) :
  (0 <= len)%Z ->
  (0 <= Qfloor (inject_Z (Qfloor (inject_Z len / q)) * q) <= len)%Z.
Proof.
  intros H. pose proof (floor_div_nonneg H) as Hn. split.
  - rewrite <- (Qfloor_Z 0). apply Qfloor_resp_le.
    apply Qmult_le_0_compat; [|now apply Qlt_le_weak].
    change 0%Q with (inject_Z 0). now rewrite <- Zle_Qle.
  - rewrite <- (Qfloor_Z len) at 2. apply Qfloor_resp_le.
    apply Qle_trans with ((inject_Z len / q) * q)%Q.
    + apply Qmult_le_compat_r; [apply Qfloor_le | now apply Qlt_le_weak].
    + apply Qle_lteq; right. field.
      intros E. rewrite E in q_pos. discriminate.
Qed.



End ResamplerRatio.

(** ** DataView and createWavBlob *)

Lemma view_write_fits (view : ArrayBuffer) (off : nat) (bs : list byte) :
  off + length bs <= length view ->
  view_write view off bs
  = Returned (firstn off view ++ bs ++ skipn (off + length bs) view).
Proof.
  intros H. unfold view_write.
  destruct (Nat.ltb_spec (length view) (off + length bs)); [lia | reflexivity].
Qed.

(** A store right after the bytes written so far, into the zeros after
    them. *)
Lemma view_write_next (pre bs : list byte) (m : nat) :
  view_write (pre ++ repeat 0%Z (length bs + m)) (length pre) bs
  = Returned ((pre ++ bs) ++ repeat 0%Z m).
Proof.
  rewrite view_write_fits
    by (rewrite length_app, repeat_length; lia).
  rewrite (@firstn_app_len _ _ pre _ eq_refl).
  rewrite (@skipn_app_len _ _ (length bs) pre _ eq_refl).
  rewrite skipn_repeat_sub.
  replace (length bs + m - length bs) with m by lia.
  now rewrite <- app_assoc.
Qed.

Lemma le_bytes_length (n : nat) (v : Z) : length (le_bytes n v) = n.
Proof. unfold le_bytes. now rewrite length_map, length_seq. Qed.

Lemma write_samples_spec (samples : Float32Array) :
  forall pre : list byte,
    write_samples (pre ++ repeat 0%Z (length samples * 2)) (length pre) samples
    = Returned (pre ++ wav_payload samples).
Proof.
  induction samples as [|s rest IH]; intros pre.
  - simpl. reflexivity.
  - cbn [write_samples length Nat.mul]. unfold setInt16.
    pose proof (le_bytes_length 2 (ToUint 16 (pcm_value s))) as Hl.
    replace (2 + length rest * 2)
      with (length (le_bytes 2 (ToUint 16 (pcm_value s))) + length rest * 2)
      by (rewrite Hl; reflexivity).
    rewrite view_write_next. cbn [bind].
    replace (length pre + 2)
      with (length (pre ++ le_bytes 2 (ToUint 16 (pcm_value s))))
      by (rewrite length_app, Hl; reflexivity).
    rewrite IH. unfold wav_payload. cbn [flat_map].
    now rewrite <- app_assoc.
Qed.

Ltac eval_writes :=
  cbv beta iota zeta delta
      [createWavBlob writeString setUint8 setUint16 setUint32 view_write bind
       new_ArrayBuffer repeat Nat.add length Nat.ltb Nat.leb firstn skipn
       app le_bytes map seq wav_header tag_bytes flat_map
       list_ascii_of_string].

Ltac eval_writes_in H :=
  cbv beta iota zeta delta
      [createWavBlob writeString setUint8 setUint16 setUint32 view_write bind
       new_ArrayBuffer repeat Nat.add length Nat.ltb Nat.leb firstn skipn
       app le_bytes map seq wav_header tag_bytes flat_map
       list_ascii_of_string] in H.

(** The encoder returns the 44 header bytes followed by the payload. *)
Lemma createWavBlob_bytes (samples : Float32Array) (sampleRate : number) :
  createWavBlob samples sampleRate
  = Returned (mkBlob (wav_header (length samples) sampleRate
                        ++ wav_payload samples) "audio/wav").
Proof.
  pose proof (write_samples_spec samples
                (wav_header (length samples) sampleRate)) as H.
  eval_writes. eval_writes_in H.
  rewrite H. reflexivity.
Qed.

(** Decoding what [le_bytes] encoded. *)
Lemma decode_byte_at (v : Z) (n : nat) :
  forall k : nat,
    fold_right (fun b acc => (b + 256 * acc)%Z) 0%Z (map (byte_at v) (seq k n))
    = ((v / 256 ^ Z.of_nat k) mod 256 ^ Z.of_nat n)%Z.
Proof.
  induction n as [|n IH]; intros k.
  - simpl. now rewrite Z.mod_1_r.
  - cbn [seq map fold_right]. rewrite IH. unfold byte_at.
    replace (Z.of_nat (S n)) with (1 + Z.of_nat n)%Z by lia.
    replace (Z.of_nat (S k)) with (Z.of_nat k + 1)%Z by lia.
    rewrite !Z.pow_add_r by lia. rewrite !Z.pow_1_r.
    rewrite <- Z.div_div by lia.
    rewrite Z.rem_mul_r by lia. reflexivity.
Qed.

Lemma decode_le_bytes (n : nat) (v : Z) :
  (0 <= v < 256 ^ Z.of_nat n)%Z ->
  fold_right (fun b acc => (b + 256 * acc)%Z) 0%Z (le_bytes n v) = v.
Proof.
  intros H. unfold le_bytes. rewrite decode_byte_at.
  simpl (256 ^ Z.of_nat 0)%Z. rewrite Z.div_1_r. now apply Z.mod_small.
Qed.

Lemma ToUint_range (bits : Z) (v : number) :
  (0 <= bits)%Z -> (0 <= ToUint bits v < 2 ^ bits)%Z.
Proof.
  intros Hb. assert (0 < 2 ^ bits)%Z by (apply Z.pow_pos_nonneg; lia).
  destruct v; simpl; try lia. apply Z.mod_pos_bound. lia.
Qed.

Lemma ToUint_of_Z (bits z : Z) :
  (0 <= z < 2 ^ bits)%Z -> ToUint bits (of_Z z) = z.
Proof.
  intros H. unfold ToUint, of_Z. rewrite Qtrunc_inject.
  now apply Z.mod_small.
Qed.

Lemma decode_u32 (v : number) :
  fold_right (fun b acc => (b + 256 * acc)%Z) 0%Z (le_bytes 4 (ToUint 32 v))
  = ToUint 32 v.
Proof. apply decode_le_bytes. apply (ToUint_range v (bits := 32)). lia. Qed.

Lemma decode_u16 (v : number) :
  fold_right (fun b acc => (b + 256 * acc)%Z) 0%Z (le_bytes 2 (ToUint 16 v))
  = ToUint 16 v.
Proof. apply decode_le_bytes. apply (ToUint_range v (bits := 16)). lia. Qed.

Lemma wav_header_length (n : nat) (sampleRate : number) :
  length (wav_header n sampleRate) = 44.
Proof. reflexivity. Qed.

(** The two bytes of sample [i] in the payload. *)
Lemma wav_payload_at (samples : Float32Array) :
  forall (i : nat) (s : sample),
    nth_error samples i = Some s ->
    firstn 2 (skipn (2 * i) (wav_payload samples))
    = le_bytes 2 (ToUint 16 (pcm_value s)).
Proof.
  induction samples as [|s0 rest IH]; intros i s Hi.
  - destruct i; discriminate.
  - unfold wav_payload. cbn [flat_map]. fold (wav_payload rest).
    pose proof (le_bytes_length 2 (ToUint 16 (pcm_value s0))) as Hl.
    destruct i as [|i]; simpl in Hi.
    + injection Hi as <-. cbn [Nat.mul skipn].
      now apply firstn_app_len.
    + replace (2 * S i) with (2 + 2 * i) by lia.
      rewrite (@skipn_app_len _ _ (2 * i) _ _ Hl). now apply IH.
Qed.

Lemma wav_payload_length (samples : Float32Array) :
  length (wav_payload samples) = 2 * length samples.
Proof.
  induction samples as [|s rest IH].
  - reflexivity.
  - unfold wav_payload in *. cbn [flat_map length].
    rewrite length_app, le_bytes_length, IH. lia.
Qed.

(** ** Quantisation of a finite sample *)

Lemma Qtrunc_bounds (a b : Z) (y : Q) :
  (inject_Z a <= y)%Q -> (y <= inject_Z b)%Q -> (a <= Qtrunc y <= b)%Z.
Proof.
  intros Ha Hb. unfold Qtrunc. destruct (Qle_bool 0 y).
  - rewrite <- (Qfloor_Z a), <- (Qfloor_Z b).
    split; now apply Qfloor_resp_le.
  - rewrite <- (Qceiling_Z a), <- (Qceiling_Z b).
    split; now apply Qceiling_resp_le.
Qed.

Lemma Qclamp_bounds (x : Q) : (-1 <= Qclamp x /\ Qclamp x <= 1)%Q.
Proof.
  unfold Qclamp.
  destruct (Qle_bool 1 x) eqn:E1.
  - destruct (Qle_bool (-1) 1) eqn:E2; split; try lra; discriminate.
  - destruct (Qle_bool (-1) x) eqn:E2.
    + apply Qle_bool_iff in E2. split; [assumption|].
      apply Qlt_le_weak, Qnot_le_lt. intros H.
      apply Qle_bool_iff in H. congruence.
    + split; lra.
Qed.

Lemma pcm_scaled_bounds (x : Q) :
  (inject_Z (-32768) <= pcm_scaled x /\ pcm_scaled x <= inject_Z 32767)%Q.
Proof.
  unfold pcm_scaled. destruct (Qclamp_bounds x) as [Hlo Hhi].
  change (inject_Z (-32768)) with (-32768)%Q.
  change (inject_Z 32767) with 32767%Q.
  destruct (Qlt_bool (Qclamp x) 0) eqn:E.
  - apply Qlt_bool_iff in E. split; lra.
  - assert (0 <= Qclamp x)%Q.
    { apply Qnot_lt_le. intros H. apply Qlt_bool_iff in H. congruence. }
    split; lra.
Qed.

Lemma pcm_value_Fin (x : Q) : pcm_value (Fin x) = Fin (pcm_scaled x).
Proof.
  unfold pcm_value, pcm_scaled, Qclamp, Math_min, Math_max, of_Z.
  cbn [num_leb].
  change (inject_Z 1) with 1%Q. change (inject_Z (-1)) with (-1)%Q.
  change (inject_Z 0) with 0%Q.
  change (inject_Z 32768) with 32768%Q. change (inject_Z 32767) with 32767%Q.
  destruct (Qle_bool 1 x); cbn [num_leb].
  - destruct (Qle_bool (-1) 1); cbn [num_ltb num_mul];
      match goal with |- context [Qlt_bool ?a ?b] => destruct (Qlt_bool a b) end;
      reflexivity.
  - destruct (Qle_bool (-1) x); cbn [num_ltb num_mul];
      match goal with |- context [Qlt_bool ?a ?b] => destruct (Qlt_bool a b) end;
      reflexivity.
Qed.

(** A finite sample is stored as the integer part of its scaled, clamped
    value: no wrap-around occurs. *)
Lemma ToInt16_pcm (x : Q) : ToInt16 (pcm_value (Fin x)) = pcm16 x.
Proof.
  rewrite pcm_value_Fin. unfold ToInt16, ToUint, pcm16.
  destruct (pcm_scaled_bounds x) as [Hlo Hhi].
  pose proof (Qtrunc_bounds Hlo Hhi) as Ht.
  set (t := Qtrunc (pcm_scaled x)) in *.
  change (2 ^ 16)%Z with 65536%Z. change (2 ^ 15)%Z with 32768%Z.
  destruct (Z.ltb_spec (t mod 65536) 32768);
    Z.to_euclidean_division_equations; lia.
Qed.

(** ** Upload controller *)

Section Controller.

Import UploadController.









End Controller.

(* ================================================================== *)
(** * Further properties of the capture code *)

(** ** The accumulator as a flat queue *)

Lemma flat_apply_step (b : SampleBuffer.t) (o : SampleBuffer.op) :
  SampleBuffer.wf b ->
  SampleBuffer.contents (SampleBuffer.apply b o)
  = flat_apply (SampleBuffer.contents b) o.
Proof.
  intros [Ht HF]. destruct o as [d|d|n| |]; simpl.
  - apply push_contents.
  - apply prepend_contents.
  - destruct (consume_spec n b Ht) as [Hfail Hok]. rewrite <- Ht.
    destruct (Nat.ltb_spec (SampleBuffer.totalLength b) n) as [Hlt|Hge].
    + now rewrite (Hfail Hlt).
    + destruct (Hok Hge) as (b' & Hc & Hcont & _). now rewrite Hc.
  - destruct (drain_spec b Ht) as (b' & Hd & Hcont & _). now rewrite Hd.
  - reflexivity.
Qed.

Lemma flat_apply_fold (ops : list SampleBuffer.op) :
  forall b : SampleBuffer.t,
    SampleBuffer.wf b ->
    SampleBuffer.contents (fold_left SampleBuffer.apply ops b)
    = fold_left flat_apply ops (SampleBuffer.contents b).
Proof.
  induction ops as [|o ops IH]; intros b Hwf; simpl.
  - reflexivity.
  - rewrite IH by now apply wf_apply. now rewrite flat_apply_step.
Qed.

(** On a well-formed buffer [drain] hands over everything and leaves the
    initial object. *)
Lemma drain_wf (b : SampleBuffer.t) :
  SampleBuffer.wf b ->
  SampleBuffer.drain b = Returned (SampleBuffer.contents b, SampleBuffer.empty).
Proof.
  intros [Ht HF].
  destruct (drain_spec b Ht) as (b' & Hd & _ & Htot & Hch).
  rewrite Hd. f_equal. f_equal.
  destruct b' as [cs n]. simpl in *. rewrite (Hch HF), Htot. reflexivity.
Qed.

Lemma consume_wf (n : nat) (b : SampleBuffer.t) :
  SampleBuffer.wf b ->
  n <= SampleBuffer.length b ->
  exists b',
    SampleBuffer.consume n b
    = Returned (firstn n (SampleBuffer.contents b), b') /\
    SampleBuffer.wf b' /\
    SampleBuffer.contents b' = skipn n (SampleBuffer.contents b).
Proof.
  intros [Ht HF] Hn. unfold SampleBuffer.length in Hn.
  destruct (consume_spec n b Ht) as [_ Hok].
  destruct (Hok Hn) as (b' & Hc & Hcont & Htot & HF').
  exists b'. split; [assumption|]. split; [|assumption].
  split; [|auto]. rewrite Htot, Hcont, length_skipn. lia.
Qed.

Lemma wf_length (b : SampleBuffer.t) :
  SampleBuffer.wf b ->
  SampleBuffer.length b = length (SampleBuffer.contents b).
Proof. intros [Ht _]. exact Ht. Qed.

(** ** drainSegments as a sliding window *)

Lemma slice_negative (a : Float32Array) (n m : nat) :
  n < m -> length a = n ->
  slice a (Z.of_nat n - Z.of_nat m) = skipn (2 * n - m) a.
Proof.
  intros H Hl. unfold slice.
  destruct (Z.ltb_spec (Z.of_nat n - Z.of_nat m) 0); [|lia].
  f_equal. rewrite Hl. lia.
Qed.

Lemma advance_le (seg ov : nat) : advance seg ov <= seg.
Proof. unfold advance. destruct (Nat.leb_spec ov seg); lia. Qed.

(** One iteration, whatever the overlap: the first [segmentSamples] samples
    are emitted and the front of the buffer moves by [advance]. *)
Lemma drainSegments_body_advance (seg ov : nat) (b : SampleBuffer.t)
    (emitted : list Float32Array) :
  SampleBuffer.wf b ->
  seg <= SampleBuffer.length b ->
  exists b',
    drainSegments_body seg ov (b, emitted)
    = Returned (b', emitted ++ [firstn seg (SampleBuffer.contents b)]) /\
    SampleBuffer.wf b' /\
    SampleBuffer.contents b'
    = skipn (advance seg ov) (SampleBuffer.contents b).
Proof.
  intros Hwf Hseg. unfold advance.
  destruct (Nat.leb_spec ov seg) as [Hov|Hov].
  - destruct (drainSegments_body_spec emitted Hwf Hseg Hov)
      as (b' & Hb & Hwf' & Hcont & _).
    exists b'. auto.
  - destruct (consume_wf Hwf Hseg) as (b1 & Hc & Hwf1 & Hcont).
    set (samples := firstn seg (SampleBuffer.contents b)) in *.
    assert (Hsl : length samples = seg).
    { unfold samples. rewrite length_firstn.
      rewrite (wf_length Hwf) in Hseg. lia. }
    unfold drainSegments_body. rewrite Hc. simpl.
    destruct (Nat.ltb_spec 0 ov); [|lia].
    rewrite (slice_negative samples Hov Hsl).
    eexists. split; [reflexivity|]. split; [now apply wf_prepend|].
    rewrite prepend_contents, Hcont.
    rewrite <- (firstn_skipn seg (SampleBuffer.contents b)) at 2.
    fold samples. rewrite skipn_app.
    match goal with
    | |- context [skipn (?x - length samples) _] =>
        replace (x - length samples) with 0 by lia
    end.
    reflexivity.
Qed.

Lemma segment_count_unique (seg adv len k : nat) :
  0 < adv ->
  k * adv <= len ->
  len - k * adv < seg ->
  (k = 0 \/ seg + (k - 1) * adv <= len) ->
  segment_count seg adv len = k.
Proof.
  intros Hadv Hk Hlt Hprev. unfold segment_count.
  destruct (Nat.ltb_spec len seg) as [Hs|Hs].
  - destruct Hprev as [->|Hprev]; [reflexivity | lia].
  - assert (Hk1 : 1 <= k) by (destruct k; simpl in *; lia).
    destruct Hprev as [->|Hprev]; [lia|].
    assert (Hd : k - 1 = (len - seg) / adv).
    { apply Nat.div_unique with (r := len - seg - adv * (k - 1)); nia. }
    lia.
Qed.

Lemma windows_step (seg adv : nat) (stream : list sample) (k n : nat) :
  windows seg adv stream k (S n)
  = window seg adv stream k :: windows seg adv stream (S k) n.
Proof. reflexivity. Qed.

(** From a buffer that holds the stream from position [k * advance] on,
    the loop emits the remaining full windows and stops. *)
Lemma drainSegments_loop_windows (seg ov : nat) (stream : list sample) :
  0 < advance seg ov ->
  forall (fuel k : nat) (b : SampleBuffer.t) (emitted : list Float32Array),
    SampleBuffer.wf b ->
    SampleBuffer.contents b = skipn (k * advance seg ov) stream ->
    k * advance seg ov <= length stream ->
    (k = 0 \/ seg + (k - 1) * advance seg ov <= length stream) ->
    SampleBuffer.length b <= fuel ->
    let count := segment_count seg (advance seg ov) (length stream) in
    exists b',
      drainSegments_loop fuel seg ov (b, emitted)
      = Finished (b', emitted
                        ++ windows seg (advance seg ov) stream k (count - k)) /\
      SampleBuffer.wf b' /\
      k <= count /\
      SampleBuffer.contents b' = skipn (count * advance seg ov) stream /\
      count * advance seg ov <= length stream /\
      (count = 0 \/ seg + (count - 1) * advance seg ov <= length stream) /\
      SampleBuffer.length b' < seg.
Proof.
  intros Hadv. set (adv := advance seg ov) in *.
  pose proof (advance_le seg ov) as Hadvle. fold adv in Hadvle.
  induction fuel as [|fuel IH]; intros k b emitted Hwf Hcont Hk Hprev Hfuel count.
  - cbn [drainSegments_loop fst].
    assert (Hlen : SampleBuffer.length b = length stream - k * adv)
      by (rewrite (wf_length Hwf), Hcont, length_skipn; reflexivity).
    destruct (Nat.leb_spec seg (SampleBuffer.length b)) as [Hseg|Hlt]; [lia|].
    assert (Hc : count = k) by (apply segment_count_unique; lia).
    exists b. rewrite Hc, Nat.sub_diag. unfold windows. simpl.
    rewrite app_nil_r.
    split; [reflexivity|]. split; [assumption|]. split; [lia|].
    split; [assumption|]. split; [assumption|]. split; assumption.
  - cbn [drainSegments_loop fst].
    assert (Hlen : SampleBuffer.length b = length stream - k * adv)
      by (rewrite (wf_length Hwf), Hcont, length_skipn; reflexivity).
    destruct (Nat.leb_spec seg (SampleBuffer.length b)) as [Hseg|Hlt].
    + destruct (@drainSegments_body_advance seg ov b emitted Hwf Hseg)
        as (b1 & Hb & Hwf1 & Hcont1).
      rewrite Hb. fold adv in Hcont1.
      assert (Hcont1' : SampleBuffer.contents b1 = skipn (S k * adv) stream).
      { rewrite Hcont1, Hcont, <- skipn_plus. f_equal. lia. }
      destruct (IH (S k) b1 (emitted ++ [firstn seg (SampleBuffer.contents b)])
                  Hwf1 Hcont1')
        as (b' & Hr & Hwf' & Hle & Hc' & Hcnt & Hlast & Hres).
      * simpl. lia.
      * right. simpl. rewrite Nat.sub_0_r. lia.
      * rewrite (wf_length Hwf1), Hcont1', length_skipn. simpl. lia.
      * exists b'. fold count in Hr, Hle, Hc', Hcnt, Hlast.
        split; [|split; [assumption|]; split; [lia|]; split; [assumption|];
                 split; [assumption|]; split; assumption].
        rewrite Hr. f_equal. f_equal. rewrite <- app_assoc. f_equal.
        replace (count - k) with (S (count - S k)) by lia.
        rewrite windows_step. unfold window. now rewrite Hcont.
    + assert (Hc : count = k) by (apply segment_count_unique; lia).
      exists b. rewrite Hc, Nat.sub_diag. unfold windows. simpl.
      rewrite app_nil_r.
    split; [reflexivity|]. split; [assumption|]. split; [lia|].
    split; [assumption|]. split; [assumption|]. split; assumption.
Qed.

Lemma drainSegments_windows (seg ov fuel : nat) (b : SampleBuffer.t) :
  SampleBuffer.wf b ->
  0 < advance seg ov ->
  SampleBuffer.length b <= fuel ->
  let stream := SampleBuffer.contents b in
  let count := segment_count seg (advance seg ov) (length stream) in
  exists b',
    drainSegments fuel b seg ov
    = Finished (b', windows seg (advance seg ov) stream 0 count) /\
    SampleBuffer.wf b' /\
    SampleBuffer.contents b' = skipn (count * advance seg ov) stream /\
    count * advance seg ov <= length stream /\
    (count = 0 \/ seg + (count - 1) * advance seg ov <= length stream) /\
    SampleBuffer.length b' < seg.
Proof.
  intros Hwf Hadv Hfuel stream count.
  destruct (@drainSegments_loop_windows seg ov stream Hadv fuel 0 b []
              Hwf eq_refl (Nat.le_0_l _) (or_introl eq_refl) Hfuel)
    as (b' & Hr & Hwf' & _ & Hc & Hcnt & Hlast & Hres).
  fold count in Hr, Hc, Hcnt, Hlast.
  rewrite Nat.sub_0_r in Hr. exists b'.
  split; [exact Hr|]. split; [assumption|]. split; [assumption|].
  split; [assumption|]. split; assumption.
Qed.

(** The strides of the first [n] windows make up the first [n * adv]
    samples of the stream. *)
Lemma concat_strides (seg adv : nat) (stream : list sample) (n : nat) :
  adv <= seg ->
  concat (map (firstn adv) (windows seg adv stream 0 n))
  = firstn (n * adv) stream.
Proof.
  intros Hle. unfold windows. induction n as [|n IH].
  - reflexivity.
  - rewrite seq_S, !map_app, concat_app.
    replace (S n * adv) with (n * adv + adv) by lia.
    rewrite firstn_plus. f_equal; [exact IH|].
    simpl. rewrite app_nil_r. unfold window.
    now rewrite firstn_firstn, Nat.min_l by assumption.
Qed.

(** With no progress per iteration the loop is still running after any
    number of iterations, emitting the same samples again. *)
Lemma drainSegments_loop_stuck (seg ov : nat) :
  advance seg ov = 0 ->
  forall (fuel : nat) (b : SampleBuffer.t) (emitted : list Float32Array),
    SampleBuffer.wf b ->
    seg <= SampleBuffer.length b ->
    exists b',
      drainSegments_loop fuel seg ov (b, emitted)
      = OutOfFuel (b', emitted
                         ++ repeat (firstn seg (SampleBuffer.contents b)) fuel) /\
      SampleBuffer.contents b' = SampleBuffer.contents b.
Proof.
  intros Hadv. induction fuel as [|fuel IH]; intros b emitted Hwf Hseg.
  - cbn [drainSegments_loop fst].
    destruct (Nat.leb_spec seg (SampleBuffer.length b)); [|lia].
    exists b. simpl. now rewrite app_nil_r.
  - cbn [drainSegments_loop fst].
    destruct (Nat.leb_spec seg (SampleBuffer.length b)); [|lia].
    destruct (@drainSegments_body_advance seg ov b emitted Hwf Hseg)
      as (b1 & Hb & Hwf1 & Hcont1).
    rewrite Hb, Hadv in *. simpl skipn in Hcont1.
    destruct (IH b1 (emitted ++ [firstn seg (SampleBuffer.contents b)]) Hwf1)
      as (b' & Hr & Hc').
    { rewrite (wf_length Hwf1), Hcont1, <- (wf_length Hwf). assumption. }
    exists b'. rewrite Hr, Hcont1. split; [|congruence].
    rewrite <- app_assoc. reflexivity.
Qed.

Lemma drainSegments_loop_not_finished (seg ov : nat) (st : drain_state) :
  forall fuel st',
    drainSegments_loop fuel seg ov st = OutOfFuel st' ->
    forall fuel', fuel' <= fuel ->
      exists st'', drainSegments_loop fuel' seg ov st = OutOfFuel st''.
Proof.
  intros fuel. revert st.
  induction fuel as [|fuel IH]; intros st st' Hr fuel' Hle.
  - assert (fuel' = 0) by lia. subst. eauto.
  - destruct fuel' as [|fuel'].
    + cbn [drainSegments_loop] in *.
      destruct (seg <=? SampleBuffer.length (fst st)); [eauto | discriminate].
    + cbn [drainSegments_loop] in *.
      destruct (seg <=? SampleBuffer.length (fst st)); [|discriminate].
      destruct (drainSegments_body seg ov st) as [st1|e]; [|discriminate].
      apply (IH st1 st' Hr). lia.
Qed.

(** ** The capture loop *)

Lemma windows_prefix (seg adv : nat) (stream more : list sample) (k : nat) :
  (k = 0 \/ seg + (k - 1) * adv <= length stream) ->
  windows seg adv (stream ++ more) 0 k = windows seg adv stream 0 k.
Proof.
  intros Hfit. unfold windows. apply map_ext_in. intros j Hj.
  apply in_seq in Hj. destruct Hfit as [->|Hfit]; [lia|].
  assert (Hj' : j * adv + seg <= length stream) by nia.
  unfold window. rewrite skipn_app.
  replace (j * adv - length stream) with 0 by lia. simpl skipn.
  rewrite firstn_app, length_skipn.
  replace (seg - (length stream - j * adv)) with 0 by lia.
  now rewrite firstn_O, app_nil_r.
Qed.

Lemma windows_app (seg adv : nat) (stream : list sample) (k n : nat) :
  windows seg adv stream 0 k ++ windows seg adv stream k n
  = windows seg adv stream 0 (k + n).
Proof. unfold windows. now rewrite seq_app, map_app. Qed.

Lemma fed_init (seg adv : nat) :
  0 < seg -> fed seg adv [] (SampleBuffer.empty, []).
Proof.
  intros Hseg. unfold fed, segment_count. simpl.
  destruct (Nat.ltb_spec 0 seg); [|lia]. simpl.
  split; [apply wf_empty|]. repeat split; auto.
Qed.

Section Feeding.

Variables seg ov fuel : nat.
Hypothesis progress : 0 < advance seg ov.

Lemma feed_fed (stream x : list sample)
    (st : SampleBuffer.t * list Float32Array) :
  fed seg (advance seg ov) stream st ->
  length (stream ++ x) <= fuel ->
  exists st',
    feed fuel seg ov x st = Done st' /\
    fed seg (advance seg ov) (stream ++ x) st'.
Proof.
  destruct st as [b recorded]. unfold fed at 1. cbn [fst snd].
  set (adv := advance seg ov) in *.
  set (k := segment_count seg adv (length stream)).
  intros (Hwf & Hcont & Hrec & Hk & Hprev & Hres) Hfuel.
  unfold feed.
  destruct (Nat.ltb_spec 0 (length x)) as [Hx|Hx].
  - assert (Hcont' : SampleBuffer.contents (SampleBuffer.push x b)
                     = skipn (k * adv) (stream ++ x)).
    { rewrite push_contents, Hcont, skipn_app.
      replace (k * adv - length stream) with 0 by lia. reflexivity. }
    destruct (@drainSegments_loop_windows seg ov (stream ++ x) progress fuel k
                (SampleBuffer.push x b) [] (wf_push x Hwf) Hcont')
      as (b' & Hr & Hwf' & Hle & Hc' & Hcnt & Hlast & Hres').
    { rewrite length_app. lia. }
    { rewrite length_app. destruct Hprev; [now left | right; lia]. }
    { rewrite (wf_length (wf_push x Hwf)), Hcont', length_skipn. lia. }
    fold adv in Hr, Hc', Hcnt, Hlast.
    set (k' := segment_count seg adv (length (stream ++ x))) in *.
    unfold drainSegments. rewrite Hr.
    eexists. split; [reflexivity|]. unfold fed. cbn [fst snd].
    fold adv. fold k'.
    split; [assumption|]. split; [assumption|]. split.
    { rewrite Hrec. cbn [app].
      rewrite <- (@windows_prefix seg adv stream x k Hprev).
      rewrite windows_app. f_equal. fold adv in Hle. fold k' in Hle. lia. }
    split; [assumption|]. split; assumption.
  - assert (x = []) by (apply length_zero_iff_nil; lia). subst x.
    exists (b, recorded). split; [reflexivity|].
    rewrite app_nil_r. unfold fed. cbn [fst snd]. fold adv. fold k.
    split; [assumption|]. split; [assumption|]. split; [assumption|].
    split; [assumption|]. split; assumption.
Qed.

Lemma feed_all_fed (xs : list Float32Array) :
  forall (stream : list sample) (st : SampleBuffer.t * list Float32Array),
    fed seg (advance seg ov) stream st ->
    length (stream ++ concat xs) <= fuel ->
    exists st',
      feed_all fuel seg ov xs st = Done st' /\
      fed seg (advance seg ov) (stream ++ concat xs) st'.
Proof.
  induction xs as [|x rest IH]; intros stream st Hfed Hfuel.
  - exists st. simpl. rewrite app_nil_r. auto.
  - cbn [feed_all concat] in *. rewrite app_assoc in Hfuel |- *.
    destruct (@feed_fed stream x st Hfed) as (st1 & Hf & Hfed1).
    { rewrite !length_app in Hfuel. rewrite length_app. lia. }
    rewrite Hf. now apply IH.
Qed.

Lemma capture_fed (chunks : list Float32Array) :
  forall (r : StreamingResampler.t) (stream : list sample)
         (st : SampleBuffer.t * list Float32Array)
         (outputs : list Float32Array) (total : Z) (r' : StreamingResampler.t),
    StreamingResampler.process_all chunks r = Returned (outputs, total, r') ->
    fed seg (advance seg ov) stream st ->
    length (stream ++ concat outputs) <= fuel ->
    exists st',
      capture fuel seg ov chunks r st = Done (r', st') /\
      fed seg (advance seg ov) (stream ++ concat outputs) st'.
Proof.
  induction chunks as [|chunk rest IH];
    intros r stream st outputs total r' Hall Hfed Hfuel.
  - cbn [StreamingResampler.process_all] in Hall. injection Hall as <- _ <-.
    exists st. simpl. rewrite app_nil_r. auto.
  - cbn [StreamingResampler.process_all capture] in *.
    destruct (StreamingResampler.process chunk r) as [[output r1]|e];
      [|discriminate].
    cbn [bind] in Hall.
    destruct (StreamingResampler.process_all rest r1)
      as [[[outs tot] r2]|e] eqn:Erest; [|discriminate].
    cbn [bind] in Hall. injection Hall as <- _ <-.
    cbn [concat] in *. rewrite app_assoc in Hfuel |- *.
    destruct (@feed_fed stream output st Hfed) as (st1 & Hf & Hfed1).
    { rewrite !length_app in Hfuel. rewrite length_app. lia. }
    rewrite Hf. eapply IH; eauto.
Qed.

End Feeding.

(** ** More about the encoder *)

Lemma payload_sample (samples : Float32Array) (sampleRate : number)
    (i : nat) (s : sample) :
  nth_error samples i = Some s ->
  getInt16 (wav_header (length samples) sampleRate ++ wav_payload samples)
           (44 + 2 * i)
  = ToInt16 (pcm_value s).
Proof.
  intros Hi. unfold getInt16, getUint.
  rewrite (@skipn_app_len _ _ (2 * i) _ _
             (wav_header_length (length samples) sampleRate)).
  rewrite (wav_payload_at samples i Hi), decode_u16. reflexivity.
Qed.

Lemma byte_at_range (v : Z) (k : nat) : (0 <= byte_at v k < 256)%Z.
Proof. unfold byte_at. apply Z.mod_pos_bound. lia. Qed.

Lemma le_bytes_range (n : nat) (v : Z) :
  Forall (fun b => (0 <= b < 256)%Z) (le_bytes n v).
Proof.
  unfold le_bytes. apply Forall_forall. intros b Hb.
  apply in_map_iff in Hb as (k & <- & _). apply byte_at_range.
Qed.

Lemma wav_payload_range (samples : Float32Array) :
  Forall (fun b => (0 <= b < 256)%Z) (wav_payload samples).
Proof.
  induction samples as [|s rest IH]; [constructor|].
  unfold wav_payload in *. cbn [flat_map].
  apply Forall_app. split; [apply le_bytes_range | exact IH].
Qed.

Lemma tag_bytes_range (str : string) :
  Forall (fun b => (0 <= b < 256)%Z) (tag_bytes str).
Proof.
  unfold tag_bytes. induction (list_ascii_of_string str) as [|c rest IH];
    [constructor|].
  cbn [flat_map]. apply Forall_app. split; [apply le_bytes_range | exact IH].
Qed.

Lemma wav_header_range (n : nat) (sampleRate : number) :
  Forall (fun b => (0 <= b < 256)%Z) (wav_header n sampleRate).
Proof.
  unfold wav_header.
  repeat (apply Forall_app; split;
          [first [apply tag_bytes_range | apply le_bytes_range]|]).
  apply le_bytes_range.
Qed.

(** Truncation towards zero is monotone and within one of its argument. *)
Lemma Qle_bool_false_lt (x y : Q) : Qle_bool x y = false -> (y < x)%Q.
Proof.
  intros H. apply Qnot_le_lt. intros Hle. apply Qle_bool_iff in Hle. congruence.
Qed.

Lemma Qlt_bool_false_le (x y : Q) : Qlt_bool x y = false -> (y <= x)%Q.
Proof.
  intros H. apply Qnot_lt_le. intros Hlt. apply Qlt_bool_iff in Hlt. congruence.
Qed.

Lemma Qtrunc_mono (x y : Q) : (x <= y)%Q -> (Qtrunc x <= Qtrunc y)%Z.
Proof.
  intros Hxy. unfold Qtrunc.
  destruct (Qle_bool 0 x) eqn:Ex; destruct (Qle_bool 0 y) eqn:Ey.
  - now apply Qfloor_resp_le.
  - apply Qle_bool_iff in Ex. apply Qle_bool_false_lt in Ey. lra.
  - apply Qle_bool_false_lt in Ex. apply Qle_bool_iff in Ey.
    apply Z.le_trans with 0%Z.
    + rewrite <- (Qceiling_Z 0). apply Qceiling_resp_le.
      apply Qlt_le_weak. exact Ex.
    + rewrite <- (Qfloor_Z 0). apply Qfloor_resp_le. exact Ey.
  - now apply Qceiling_resp_le.
Qed.

Lemma Qtrunc_nonneg (y : Q) :
  (0 <= y)%Q -> (inject_Z (Qtrunc y) <= y /\ y < inject_Z (Qtrunc y) + 1)%Q.
Proof.
  intros Hy. unfold Qtrunc. apply Qle_bool_iff in Hy. rewrite Hy. split.
  - apply Qfloor_le.
  - pose proof (Qlt_floor y) as H. rewrite inject_Z_plus in H. exact H.
Qed.

Lemma Qtrunc_neg (y : Q) :
  (y < 0)%Q -> (inject_Z (Qtrunc y) - 1 < y /\ y <= inject_Z (Qtrunc y))%Q.
Proof.
  intros Hy. unfold Qtrunc.
  destruct (Qle_bool 0 y) eqn:E; [apply Qle_bool_iff in E; lra|]. split.
  - pose proof (Qceiling_lt y) as H. unfold Z.sub in H.
    rewrite inject_Z_plus, inject_Z_opp in H. exact H.
  - apply Qle_ceiling.
Qed.

Lemma Qclamp_inside (x : Q) : (-1 <= x)%Q -> (x <= 1)%Q -> (Qclamp x == x)%Q.
Proof.
  intros Hlo Hhi. unfold Qclamp.
  destruct (Qle_bool 1 x) eqn:E1.
  - apply Qle_bool_iff in E1.
    change (Qle_bool (-1) 1) with true. cbv iota. lra.
  - destruct (Qle_bool (-1) x) eqn:E2; [reflexivity|].
    apply Qle_bool_false_lt in E2. lra.
Qed.

Lemma Qclamp_mono (x y : Q) : (x <= y)%Q -> (Qclamp x <= Qclamp y)%Q.
Proof.
  intros Hxy. unfold Qclamp.
  destruct (Qle_bool 1 x) eqn:Ex1; destruct (Qle_bool 1 y) eqn:Ey1;
    repeat match goal with
           | H : Qle_bool _ _ = true |- _ => apply Qle_bool_iff in H
           | H : Qle_bool _ _ = false |- _ => apply Qle_bool_false_lt in H
           end;
    repeat match goal with
           | |- context [Qle_bool ?a ?b] =>
               let E := fresh "E" in
               destruct (Qle_bool a b) eqn:E;
               [apply Qle_bool_iff in E | apply Qle_bool_false_lt in E]
           end; lra.
Qed.

Lemma pcm_scaled_mono (x y : Q) : (x <= y)%Q -> (pcm_scaled x <= pcm_scaled y)%Q.
Proof.
  intros Hxy. apply Qclamp_mono in Hxy. unfold pcm_scaled.
  destruct (Qlt_bool (Qclamp x) 0) eqn:Ex; destruct (Qlt_bool (Qclamp y) 0) eqn:Ey;
    repeat match goal with
           | H : Qlt_bool _ _ = true |- _ => apply Qlt_bool_iff in H
           | H : Qlt_bool _ _ = false |- _ => apply Qlt_bool_false_le in H
           end; lra.
Qed.

Lemma pcm16_mono (x y : Q) : (x <= y)%Q -> (pcm16 x <= pcm16 y)%Z.
Proof. intros H. unfold pcm16. now apply Qtrunc_mono, pcm_scaled_mono. Qed.

Lemma pcm16_range (x : Q) : (-32768 <= pcm16 x <= 32767)%Z.
Proof.
  destruct (pcm_scaled_bounds x) as [Hlo Hhi].
  exact (Qtrunc_bounds Hlo Hhi).
Qed.

(** ** The samples the resampler emits *)

(** The store loop fills the output with the interpolated values. *)
Lemma store_loop_fill (f : nat -> sample) (m : nat) :
  forall (k : nat) (pre rest : Float32Array),
    length pre = k -> length rest = m ->
    fold_left (fun out i => array_store out i (f i)) (seq k m) (pre ++ rest)
    = pre ++ map f (seq k m).
Proof.
  induction m as [|m IH]; intros k pre rest Hpre Hrest.
  - apply length_zero_iff_nil in Hrest. now subst.
  - destruct rest as [|r0 rest]; [discriminate|].
    cbn [seq map fold_left]. unfold array_store at 2.
    rewrite length_app. cbn [length].
    destruct (Nat.ltb_spec k (length pre + S (length rest))); [|lia].
    rewrite (@firstn_app_len _ k pre _ Hpre).
    replace (S k) with (k + 1) by lia.
    rewrite (@skipn_app_len _ k 1 pre _ Hpre). cbn [skipn].
    replace (pre ++ f k :: rest) with ((pre ++ [f k]) ++ rest)
      by (now rewrite <- app_assoc).
    replace (k + 1) with (S k) by lia.
    rewrite IH.
    + now rewrite <- app_assoc.
    + rewrite length_app; simpl; lia.
    + simpl in Hrest. lia.
Qed.

Lemma store_loop_map (f : nat -> sample) (n : nat) :
  fold_left (fun out i => array_store out i (f i)) (seq 0 n)
            (new_Float32Array n)
  = map f (seq 0 n).
Proof.
  apply (@store_loop_fill f n 0 [] (new_Float32Array n) eq_refl).
  apply new_Float32Array_length.
Qed.

Lemma array_get_integer (a : Float32Array) (y : Q) (z : Z) :
  (y == inject_Z z)%Q -> (0 <= z)%Z ->
  array_get a (Fin y) = nth (Z.to_nat z) a NaN.
Proof.
  intros Hy Hz. unfold array_get.
  assert (Hf : Qfloor y = z) by (rewrite Hy; apply Qfloor_Z).
  rewrite Hf.
  assert (Hq : Qeq_bool y (inject_Z z) = true) by now apply Qeq_bool_iff.
  rewrite Hq. destruct (Z.leb_spec 0 z); [reflexivity | lia].
Qed.

Lemma array_get_of_Z (a : Float32Array) (z : Z) :
  (0 <= z)%Z -> array_get a (of_Z z) = nth (Z.to_nat z) a NaN.
Proof. intros Hz. now apply array_get_integer. Qed.

Lemma Math_min_Fin (x y : Q) :
  Math_min (Fin x) (Fin y) = if Qle_bool x y then Fin x else Fin y.
Proof. reflexivity. Qed.

Lemma finite_nth (a : Float32Array) (i : nat) :
  Forall finite a -> i < length a -> exists x, nth i a NaN = Fin x.
Proof.
  intros HF Hi. rewrite Forall_forall in HF.
  specialize (HF (nth i a NaN) (nth_In a NaN Hi)).
  destruct (nth i a NaN) as [| | |x]; simpl in HF; try contradiction.
  now exists x.
Qed.

Lemma in_range_finite (lo hi : Q) (a : Float32Array) :
  Forall (in_range lo hi) a -> Forall finite a.
Proof.
  apply Forall_impl. intros [| | |x]; simpl; tauto.
Qed.

Lemma in_range_nth (lo hi : Q) (a : Float32Array) (i : nat) (x : Q) :
  Forall (in_range lo hi) a -> i < length a -> nth i a NaN = Fin x ->
  (lo <= x /\ x <= hi)%Q.
Proof.
  intros HF Hi Hx. rewrite Forall_forall in HF.
  specialize (HF (nth i a NaN) (nth_In a NaN Hi)). rewrite Hx in HF.
  exact HF.
Qed.

Lemma Forall_skipn_keeps (A : Type) (P : A -> Prop) (n : nat) (l : list A) :
  Forall P l -> Forall P (skipn n l).
Proof.
  revert l. induction n as [|n IH]; intros l HF; [exact HF|].
  destruct l as [|x l]; [constructor|]. simpl. apply IH. now inversion HF.
Qed.

(** A point between two values of an interval is in the interval. *)
Lemma between_in_range (lo hi a b f : Q) :
  (lo <= a /\ a <= hi)%Q -> (lo <= b /\ b <= hi)%Q -> (0 <= f /\ f < 1)%Q ->
  (lo <= a + (b - a) * f /\ a + (b - a) * f <= hi)%Q.
Proof.
  intros [Ha1 Ha2] [Hb1 Hb2] [Hf1 Hf2].
  assert (E : (a + (b - a) * f == a * (1 - f) + b * f)%Q) by ring.
  rewrite E.
  assert (H1 : (lo * (1 - f) <= a * (1 - f))%Q)
    by (apply Qmult_le_compat_r; lra).
  assert (H2 : (a * (1 - f) <= hi * (1 - f))%Q)
    by (apply Qmult_le_compat_r; lra).
  assert (H3 : (lo * f <= b * f)%Q) by (apply Qmult_le_compat_r; lra).
  assert (H4 : (b * f <= hi * f)%Q) by (apply Qmult_le_compat_r; lra).
  assert (E1 : (lo * (1 - f) + lo * f == lo)%Q) by ring.
  assert (E2 : (hi * (1 - f) + hi * f == hi)%Q) by ring.
  split; lra.
Qed.

Section Interpolation.

Import StreamingResampler.

Variable q : Q.
Hypothesis q_pos : (0 < q)%Q.

(** Output [i] exists when [i < floor(len / q)]; then [i * q <= len - q]. *)
Lemma index_bound (len : nat) (i : nat) :
  (Z.of_nat i < Qfloor (inject_Z (Z.of_nat len) / q))%Z ->
  (inject_Z (Z.of_nat i) * q + q <= inject_Z (Z.of_nat len))%Q.
Proof.
  intros Hi.
  assert (H1 : (inject_Z (Z.of_nat i) + 1
                <= inject_Z (Qfloor (inject_Z (Z.of_nat len) / q)))%Q).
  { change 1%Q with (inject_Z 1). rewrite <- inject_Z_plus, <- Zle_Qle. lia. }
  pose proof (Qfloor_le (inject_Z (Z.of_nat len) / q)) as H2.
  assert (H3 : ((inject_Z (Z.of_nat i) + 1) * q
                <= (inject_Z (Z.of_nat len) / q) * q)%Q).
  { apply Qmult_le_compat_r; [|now apply Qlt_le_weak].
    eapply Qle_trans; eassumption. }
  assert (H4 : ((inject_Z (Z.of_nat len) / q) * q == inject_Z (Z.of_nat len))%Q).
  { field. intros E. rewrite E in q_pos. discriminate. }
  rewrite H4 in H3. lra.
Qed.

(** The value stored at output [i]: a point between two neighbouring
    samples of the combined input, both read inside the array. *)
Lemma interpolate_reads (combined : Float32Array) (i : nat) :
  Forall finite combined ->
  (Z.of_nat i < Qfloor (inject_Z (Z.of_nat (length combined)) / q))%Z ->
  let left := Qfloor (inject_Z (Z.of_nat i) * q) in
  let right := Z.min (left + 1) (Z.of_nat (length combined) - 1) in
  let frac := (inject_Z (Z.of_nat i) * q - inject_Z left)%Q in
  exists xa xb,
    interpolate combined (Fin q) i = Fin (xa + (xb - xa) * frac) /\
    nth (Z.to_nat left) combined NaN = Fin xa /\
    nth (Z.to_nat right) combined NaN = Fin xb /\
    (0 <= left < Z.of_nat (length combined))%Z /\
    (0 <= right < Z.of_nat (length combined))%Z /\
    (0 <= frac /\ frac < 1)%Q.
Proof.
  intros HF Hi left right frac.
  pose proof (index_bound _ _ Hi) as Hidx.
  set (L := Z.of_nat (length combined)) in *.
  set (idx := (inject_Z (Z.of_nat i) * q)%Q) in *.
  assert (Hidx0 : (0 <= idx)%Q).
  { unfold idx. apply Qmult_le_0_compat; [|now apply Qlt_le_weak].
    change 0%Q with (inject_Z 0). rewrite <- Zle_Qle. lia. }
  assert (Hl0 : (0 <= left)%Z).
  { unfold left. rewrite <- (Qfloor_Z 0). now apply Qfloor_resp_le. }
  assert (HlL : (left < L)%Z).
  { assert (H : (inject_Z left < inject_Z L)%Q).
    { eapply Qle_lt_trans; [apply Qfloor_le|]. fold idx. lra. }
    now rewrite <- Zlt_Qlt in H. }
  assert (Hfrac : (0 <= frac /\ frac < 1)%Q).
  { unfold frac. pose proof (Qfloor_le idx) as H1.
    pose proof (Qlt_floor idx) as H2. fold left in H1, H2.
    rewrite inject_Z_plus in H2. change (inject_Z 1) with 1%Q in H2.
    split; lra. }
  destruct (@finite_nth combined (Z.to_nat left) HF)
    as (xa & Ha); [unfold L in HlL; lia|].
  assert (Hr : (0 <= right < L)%Z) by (unfold right; lia).
  destruct (@finite_nth combined (Z.to_nat right) HF)
    as (xb & Hb); [unfold L in Hr; lia|].
  exists xa, xb.
  split; [|split; [exact Ha|]; split; [exact Hb|]; split; [split; assumption|];
           split; assumption].
  unfold interpolate.
  change (num_mul (of_nat i) (Fin q)) with (Fin idx).
  change (Math_floor (Fin idx)) with (of_Z left).
  rewrite (array_get_of_Z combined Hl0), Ha.
  assert (Hright :
            array_get combined
              (Math_min (num_add (of_Z left) (of_Z 1))
                        (num_sub (of_nat (length combined)) (of_Z 1)))
            = Fin xb).
  { change (num_add (of_Z left) (of_Z 1))
      with (Fin (inject_Z left + inject_Z 1)).
    change (num_sub (of_nat (length combined)) (of_Z 1))
      with (Fin (inject_Z L + - inject_Z 1)).
    rewrite Math_min_Fin.
    rewrite <- inject_Z_opp, <- !inject_Z_plus, Qle_bool_inject.
    rewrite <- Hb. unfold right.
    match goal with
    | |- context [Z.leb ?a ?b] => destruct (Z.leb_spec a b) as [Hle|Hgt]
    end.
    - rewrite array_get_integer with (z := (left + 1)%Z);
        [f_equal; lia | reflexivity | lia].
    - rewrite array_get_integer with (z := (L + - (1))%Z);
        [f_equal; lia | reflexivity | lia]. }
  rewrite Hright. reflexivity.
Qed.

(** [process] on a non-empty chunk, with the emitted samples spelled
    out. *)
Lemma process_output (r : t) (input : Float32Array) :
  ratio r = Fin q ->
  input <> [] ->
  let combined := buffer r ++ input in
  let n := Qfloor (inject_Z (Z.of_nat (length combined)) / q) in
  let c := Qfloor (inject_Z n * q) in
  process input r
  = Returned (map (interpolate combined (Fin q)) (seq 0 (Z.to_nat n)),
              set_buffer r (skipn (Z.to_nat c) combined)) /\
  (0 <= n)%Z /\ (0 <= c <= Z.of_nat (length combined))%Z.
Proof.
  intros Hr Hin combined n c.
  assert (Hlen0 : (0 <= Z.of_nat (length combined))%Z) by lia.
  pose proof (floor_div_nonneg q_pos Hlen0) as Hn. fold n in Hn.
  pose proof (floor_mul_bounds q_pos Hlen0) as Hc. fold n in Hc. fold c in Hc.
  split; [|split; assumption].
  assert (HoutLen : Math_floor (num_div (of_nat (length combined)) (Fin q))
                    = of_Z n).
  { unfold of_nat, of_Z.
    rewrite num_div_fin by exact (Qeq_bool_pos_false q_pos).
    reflexivity. }
  assert (Hcons : Math_floor (num_mul (of_Z n) (Fin q)) = of_Z c)
    by reflexivity.
  unfold process.
  destruct (Nat.eqb_spec (length input) 0) as [Hz|_].
  { apply length_zero_iff_nil in Hz. contradiction. }
  fold combined. rewrite Hr, HoutLen, Hcons, num_leb_of_Z.
  destruct (Z.leb_spec n 0) as [Hle|Hgt].
  - assert (Hn0 : n = 0%Z) by lia.
    assert (Hc0 : c = 0%Z).
    { unfold c. rewrite Hn0. rewrite Qmult_0_l. apply (Qfloor_Z 0). }
    rewrite Hc0, Hn0. reflexivity.
  - rewrite Float32Array_of_length_of_Z by lia. cbn [bind].
    rewrite new_Float32Array_length, store_loop_map.
    f_equal. f_equal. f_equal.
    unfold of_nat. rewrite num_gtb_sub_of_Z.
    destruct (Z.ltb_spec c (Z.of_nat (length combined))) as [Hrem|Hrem].
    + unfold slice_num, of_Z. rewrite Qtrunc_inject. unfold slice.
      destruct (Z.ltb_spec c 0); [lia | reflexivity].
    + rewrite skipn_all2 by lia. reflexivity.
Qed.

End Interpolation.

(** ** Test fixtures *)

Lemma Qtrunc_comp (x y : Q) : (x == y)%Q -> Qtrunc x = Qtrunc y.
Proof.
  intros H. apply Z.le_antisymm; apply Qtrunc_mono; rewrite H; apply Qle_refl.
Qed.

Lemma ToUint_num_eq (bits : Z) (a b : number) :
  num_eq a b -> ToUint bits a = ToUint bits b.
Proof.
  destruct a, b; simpl; try contradiction; try reflexivity.
  intros H. now rewrite (Qtrunc_comp H).
Qed.

Lemma fixture_dataSize (n : nat) :
  num_eq (num_mul (num_mul (of_nat n) (of_Z 1)) (num_div (of_Z 16) (of_Z 8)))
         (of_nat (n * 2)).
Proof.
  cbv [num_mul num_div of_nat of_Z num_eq].
  change (Qeq_bool (inject_Z 8) 0) with false. cbv iota.
  rewrite Nat2Z.inj_mul, inject_Z_mult.
  change (inject_Z (Z.of_nat 2)) with 2%Q.
  change (inject_Z 1) with 1%Q.
  change (inject_Z 16 / inject_Z 8)%Q with (16 * (1 # 8))%Q.
  ring.
Qed.

Lemma num_add_eq (z : Z) (a : number) (m : nat) :
  num_eq a (of_nat m) ->
  num_eq (num_add (of_Z z) a) (of_Z (z + Z.of_nat m)).
Proof.
  destruct a; simpl; try contradiction.
  intros H. rewrite H, inject_Z_plus. reflexivity.
Qed.

Lemma ArrayBuffer_of_length_nat (a : number) (m : nat) :
  num_eq a (of_nat m) -> ArrayBuffer_of_length a = Returned (new_ArrayBuffer m).
Proof.
  destruct a; simpl; try contradiction.
  intros H. rewrite (Qtrunc_comp H), Qtrunc_inject.
  destruct (Z.ltb_spec (Z.of_nat m) 0); [lia|].
  now rewrite Nat2Z.id.
Qed.

Lemma fixture_byteRate (sampleRate : number) :
  num_eq (num_mul (num_mul sampleRate (of_Z 1)) (num_div (of_Z 16) (of_Z 8)))
         (num_mul sampleRate (of_nat 2)).
Proof.
  destruct sampleRate; try exact I.
  cbv [num_mul num_div of_nat of_Z num_eq].
  change (Qeq_bool (inject_Z 8) 0) with false. cbv iota.
  change (inject_Z (Z.of_nat 2)) with 2%Q.
  change (inject_Z 1) with 1%Q.
  change (inject_Z 16 / inject_Z 8)%Q with (16 * (1 # 8))%Q.
  ring.
Qed.

Lemma wav_payload_silence (n : nat) :
  wav_payload (repeat (Fin 0) n) = repeat 0%Z (n * 2).
Proof.
  induction n as [|n IH]; [reflexivity|].
  cbn [repeat wav_payload flat_map Nat.mul Nat.add].
  fold (wav_payload (repeat (Fin 0) n)). rewrite IH. reflexivity.
Qed.

Lemma createTestWavBuffer_mono16 (n : nat) (sampleRate : number) :
  createTestWavBuffer sampleRate (of_Z 1) (of_nat n) (of_Z 16)
  = Returned (wav_header n sampleRate ++ repeat 0%Z (n * 2)).
Proof.
  unfold createTestWavBuffer.
  pose proof (fixture_dataSize n) as Hds.
  pose proof (fixture_byteRate sampleRate) as Hbr.
  set (ds := num_mul (num_mul (of_nat n) (of_Z 1))
                     (num_div (of_Z 16) (of_Z 8))) in *.
  set (br := num_mul (num_mul sampleRate (of_Z 1))
                     (num_div (of_Z 16) (of_Z 8))) in *.
  assert (Hba : num_eq (num_mul (of_Z 1) (num_div (of_Z 16) (of_Z 8)))
                       (of_nat 2)) by reflexivity.
  set (ba := num_mul (of_Z 1) (num_div (of_Z 16) (of_Z 8))) in *.
  pose proof (@num_add_eq 36 ds _ Hds) as H36.
  pose proof (@num_add_eq 44 ds _ Hds) as H44.
  change (of_Z (44 + Z.of_nat (n * 2))) with (of_Z (Z.of_nat 44 + Z.of_nat (n * 2))) in H44.
  rewrite <- Nat2Z.inj_add in H44.
  change (of_Z (36 + Z.of_nat (n * 2))) with (of_Z (Z.of_nat 36 + Z.of_nat (n * 2))) in H36.
  rewrite <- Nat2Z.inj_add in H36.
  rewrite (@ArrayBuffer_of_length_nat _ _ H44).
  unfold setUint32, setUint16.
  rewrite (@ToUint_num_eq 32 _ _ H36), (@ToUint_num_eq 32 _ _ Hds),
          (@ToUint_num_eq 32 _ _ Hbr), (@ToUint_num_eq 16 _ _ Hba).
  fold (of_nat (36 + n * 2)).
  eval_writes. reflexivity.
Qed.

(* ================================================================== *)
(** * The properties of the design document *)

(** C1 (segmenter overlap invariant).  For every run of [drainSegments]
    with [0 < overlapSamples <= segmentSamples], stopped by its guard or
    observed after any number of iterations, no exception is raised, every
    emitted segment has [segmentSamples] samples, and for every pair of
    consecutively emitted segments [k] and [k+1] the first [overlapSamples]
    samples of segment [k+1] are the last [overlapSamples] samples of
    segment [k]. *)
Theorem C1_overlap_invariant (fuel : nat) (buffer : SampleBuffer.t)
    (segmentSamples overlapSamples : nat) :
  SampleBuffer.wf buffer ->
  0 < overlapSamples ->
  overlapSamples <= segmentSamples ->
  let r := drainSegments fuel buffer segmentSamples overlapSamples in
  (forall e, r <> Raised e) /\
  Forall (fun s => length s = segmentSamples) (emitted_of r) /\
  (forall k s1 s2,
      nth_error (emitted_of r) k = Some s1 ->
      nth_error (emitted_of r) (S k) = Some s2 ->
      firstn overlapSamples s2 = lastn overlapSamples s1 /\
      length (firstn overlapSamples s2) = overlapSamples).
Proof.
  intros Hwf Hpos Hov r.
  destruct (drainSegments_loop_inv Hov fuel
              (drain_inv_init segmentSamples overlapSamples Hwf))
    as (st' & Hr & (_ & Hfull & Hchain & _)).
  fold (drainSegments fuel buffer segmentSamples overlapSamples) in Hr.
  fold r in Hr.
  assert (Hem : emitted_of r = snd st') by (destruct Hr as [-> | ->]; reflexivity).
  split; [|split].
  - intros e He. destruct Hr as [Hr|Hr]; congruence.
  - now rewrite Hem.
  - rewrite Hem. intros k s1 s2 H1 H2. split.
    + eapply Hchain; eassumption.
    + apply nth_error_In in H2.
      rewrite Forall_forall in Hfull. specialize (Hfull s2 H2).
      rewrite length_firstn. lia.
Qed.

(** C3 (accumulator consume contract).  In every state a [SampleBuffer] can
    reach and for every [n], [consume(n)] fails with InsufficientSamples if
    and only if [n] exceeds the current length; when [n <= length] it
    returns exactly the first [n] unconsumed samples in order, and
    afterwards the buffer holds the remaining samples in order, its length
    has dropped by [n] and the class invariant still holds. *)
Theorem C3_consume_contract (ops : list SampleBuffer.op) (n : nat) :
  let b := SampleBuffer.run ops in
  (SampleBuffer.consume n b = Thrown InsufficientSamples
   <-> SampleBuffer.length b < n) /\
  (n <= SampleBuffer.length b ->
   exists b',
     SampleBuffer.consume n b
     = Returned (firstn n (SampleBuffer.contents b), b') /\
     length (firstn n (SampleBuffer.contents b)) = n /\
     SampleBuffer.contents b' = skipn n (SampleBuffer.contents b) /\
     SampleBuffer.length b' = SampleBuffer.length b - n /\
     SampleBuffer.wf b').
Proof.
  intros b. destruct (wf_run ops) as [Ht HF]. fold b in Ht, HF.
  destruct (consume_spec n b Ht) as [Hfail Hok].
  unfold SampleBuffer.length. split; [split|].
  - intros Hthrown.
    destruct (Nat.lt_ge_cases (SampleBuffer.totalLength b) n) as [Hlt|Hge];
      [assumption|].
    destruct (Hok Hge) as (b' & Hc & _). congruence.
  - exact Hfail.
  - intros Hle. destruct (Hok Hle) as (b' & Hc & Hcont & Htot & HF').
    exists b'. split; [assumption|]. split; [|split; [|split]].
    + rewrite length_firstn. lia.
    + assumption.
    + assumption.
    + split; [|auto]. rewrite Htot, Hcont, length_skipn. lia.
Qed.

(** C6 (accumulator length invariant).  After every sequence of push,
    prepend, consume, drain and clear calls on a fresh [SampleBuffer], the
    [length] property equals the sum over the runs of [data.length - offset],
    which is the number of unconsumed samples; and a push or a prepend of an
    empty array leaves the state unchanged. *)
Theorem C6_length_invariant (ops : list SampleBuffer.op) :
  let b := SampleBuffer.run ops in
  Z.of_nat (SampleBuffer.length b) = SampleBuffer.unconsumed b /\
  SampleBuffer.length b = length (SampleBuffer.contents b) /\
  SampleBuffer.push [] b = b /\
  SampleBuffer.prepend [] b = b.
Proof.
  intros b. destruct (wf_run ops) as [Ht HF]. fold b in Ht, HF.
  unfold SampleBuffer.length. repeat split.
  - rewrite unconsumed_samples by exact HF. now rewrite Ht.
  - exact Ht.
Qed.

(** C7 (segmenter residual bound).  For every accumulator, every
    [segmentSamples >= 1] and every [overlapSamples < segmentSamples],
    [drainSegments] returns, and when it returns the accumulator holds fewer
    than [segmentSamples] samples, hence at most
    [segmentSamples - 1 + overlapSamples]. *)
Theorem C7_residual_bound (buffer : SampleBuffer.t)
    (segmentSamples overlapSamples : nat) :
  SampleBuffer.wf buffer ->
  1 <= segmentSamples ->
  overlapSamples < segmentSamples ->
  (exists fuel buffer' emitted,
      drainSegments fuel buffer segmentSamples overlapSamples
      = Finished (buffer', emitted)) /\
  (forall fuel buffer' emitted,
      drainSegments fuel buffer segmentSamples overlapSamples
      = Finished (buffer', emitted) ->
      SampleBuffer.length buffer' < segmentSamples /\
      SampleBuffer.length buffer' <= segmentSamples - 1 + overlapSamples).
Proof.
  intros Hwf Hseg Hov. split.
  - destruct (@drainSegments_loop_terminates segmentSamples overlapSamples Hov
                (SampleBuffer.length buffer) (buffer, [])
                (drain_inv_init segmentSamples overlapSamples Hwf))
      as ([b' em] & Hr & _); [simpl; lia|].
    exists (SampleBuffer.length buffer), b', em. exact Hr.
  - intros fuel b' em Hr.
    assert (Hlt : SampleBuffer.length b' < segmentSamples); [|lia].
    unfold drainSegments in Hr.
    generalize dependent (buffer, @nil Float32Array).
    induction fuel as [|fuel IH]; intros st Hr; simpl in Hr.
    + destruct (Nat.leb_spec segmentSamples (SampleBuffer.length (fst st)));
        [discriminate|].
      injection Hr as ->. assumption.
    + destruct (Nat.leb_spec segmentSamples (SampleBuffer.length (fst st))).
      * destruct (drainSegments_body segmentSamples overlapSamples st);
          [eapply IH; eassumption | discriminate].
      * injection Hr as ->. assumption.
Qed.

(** C8 (final-segment policy).  [createFinalSegmentFromRemaining(remaining,
    minSamples, segmentSamples)] returns none exactly when
    [remaining.length < minSamples]; otherwise it returns a segment of
    length exactly [segmentSamples] whose prefix is the first
    [min(remaining.length, segmentSamples)] samples of [remaining] and whose
    suffix is zeros. *)
Theorem C8_final_segment_policy (remaining : Float32Array)
    (minSamples segmentSamples : nat) :
  let m := Nat.min (length remaining) segmentSamples in
  (createFinalSegmentFromRemaining remaining minSamples segmentSamples
   = Returned None <-> length remaining < minSamples) /\
  (minSamples <= length remaining ->
   exists padded,
     createFinalSegmentFromRemaining remaining minSamples segmentSamples
     = Returned (Some padded) /\
     length padded = segmentSamples /\
     firstn m padded = firstn m remaining /\
     skipn m padded = repeat (Fin 0) (segmentSamples - m)).
Proof.
  intros m.
  destruct (createFinalSegment_spec remaining minSamples segmentSamples)
    as [Hnone Hsome].
  fold m in Hsome.
  assert (Hm : length (firstn m remaining) = m)
    by (rewrite length_firstn; unfold m; lia).
  split; [split|].
  - intros H.
    destruct (Nat.lt_ge_cases (length remaining) minSamples) as [Hlt|Hge];
      [assumption|].
    rewrite (Hsome Hge) in H. discriminate.
  - exact Hnone.
  - intros Hge. eexists. split; [apply (Hsome Hge)|]. split; [|split].
    + rewrite length_app, Hm, repeat_length. unfold m. lia.
    + now apply firstn_app_len.
    + rewrite <- (Nat.add_0_r m) at 1.
      now rewrite (@skipn_app_len _ _ 0 _ _ Hm).
Qed.

(** C10 (termination precondition of [drainSegments]).  When
    [overlapSamples < segmentSamples] every iteration shortens the buffer by
    exactly [segmentSamples - overlapSamples] and the loop terminates; when
    [overlapSamples = segmentSamples] and the buffer holds at least
    [segmentSamples] samples, every iteration leaves the length unchanged
    and the loop is still running after any number of iterations. *)
Theorem C10_termination_precondition (buffer : SampleBuffer.t)
    (segmentSamples overlapSamples : nat) :
  SampleBuffer.wf buffer ->
  (overlapSamples < segmentSamples ->
   (forall b emitted,
       SampleBuffer.wf b -> segmentSamples <= SampleBuffer.length b ->
       exists b' emitted',
         drainSegments_body segmentSamples overlapSamples (b, emitted)
         = Returned (b', emitted') /\
         SampleBuffer.wf b' /\
         SampleBuffer.length b'
         = SampleBuffer.length b - (segmentSamples - overlapSamples) /\
         SampleBuffer.length b' < SampleBuffer.length b) /\
   (exists fuel st,
       drainSegments fuel buffer segmentSamples overlapSamples = Finished st))
  /\
  (overlapSamples = segmentSamples ->
   segmentSamples <= SampleBuffer.length buffer ->
   (forall b emitted,
       SampleBuffer.wf b -> segmentSamples <= SampleBuffer.length b ->
       exists b' emitted',
         drainSegments_body segmentSamples overlapSamples (b, emitted)
         = Returned (b', emitted') /\
         SampleBuffer.wf b' /\
         SampleBuffer.length b' = SampleBuffer.length b) /\
   (forall fuel, exists st,
       drainSegments fuel buffer segmentSamples overlapSamples = OutOfFuel st
       /\ SampleBuffer.length (fst st) = SampleBuffer.length buffer
       /\ length (snd st) = fuel)).
Proof.
  intros Hwf. split.
  - intros Hov. split.
    + intros b emitted Hb Hseg.
      destruct (@drainSegments_body_spec segmentSamples overlapSamples b
                  emitted Hb Hseg) as (b' & Hbody & Hwf' & _ & Hlen); [lia|].
      exists b', (emitted ++ [firstn segmentSamples (SampleBuffer.contents b)]).
      split; [assumption|]. split; [assumption|]. split; lia.
    + destruct (@drainSegments_loop_terminates segmentSamples overlapSamples
                  Hov (SampleBuffer.length buffer) (buffer, [])
                  (drain_inv_init segmentSamples overlapSamples Hwf))
        as (st & Hr & _); [simpl; lia|].
      exists (SampleBuffer.length buffer), st. exact Hr.
  - intros -> Hseg. split.
    + intros b emitted Hb Hsegb.
      destruct (@drainSegments_body_spec segmentSamples segmentSamples b
                  emitted Hb Hsegb) as (b' & Hbody & Hwf' & _ & Hlen); [lia|].
      exists b', (emitted ++ [firstn segmentSamples (SampleBuffer.contents b)]).
      split; [assumption|]. split; [assumption|]. lia.
    + intros fuel.
      destruct (@drainSegments_loop_diverges segmentSamples fuel (buffer, [])
                  (drain_inv_init segmentSamples segmentSamples Hwf) Hseg)
        as (st & Hr & Hlen & Hem).
      exists st. split; [assumption|]. split; assumption.
Qed.


(** C9, as the code has it (resampler ratio).  For every constructor pair
    [(sourceRate, targetRate)] the ratio is [sourceRate / targetRate] when
    that quotient is greater than zero and 1 otherwise, so it is positive
    in every case; the quotient is not raised to 1 when
    [targetRate >= sourceRate]. *)
Theorem C9_ratio_positive (sourceRate targetRate : number) :
  let r := StreamingResampler.constructor sourceRate targetRate in
  let baseRatio := num_div sourceRate targetRate in
  StreamingResampler.ratio r
  = (if num_gtb baseRatio (of_Z 0) then baseRatio else of_Z 1) /\
  num_gtb (StreamingResampler.ratio r) (of_Z 0) = true /\
  StreamingResampler.buffer r = [].
Proof.
  intros r baseRatio. split; [reflexivity|]. split; [|reflexivity].
  unfold r, StreamingResampler.constructor. cbn [StreamingResampler.ratio].
  fold baseRatio.
  destruct (num_gtb baseRatio (of_Z 0)) eqn:E; [exact E | reflexivity].
Qed.

(** C9 as stated fails for an upsampling pair: with [sourceRate = 8000] and
    [targetRate = 16000] ([targetRate >= sourceRate]) the ratio is 1/2,
    which is below 1. *)
Lemma C9_counterexample :
  let r := StreamingResampler.constructor (of_Z 8000) (of_Z 16000) in
  num_leb (of_Z 8000) (of_Z 16000) = true /\
  StreamingResampler.ratio r = Fin (8000 # 16000) /\
  num_leb (of_Z 1) (StreamingResampler.ratio r) = false /\
  ~ (1 <= 8000 # 16000)%Q.
Proof.
  cbv zeta. split; [reflexivity|]. split; [reflexivity|].
  split; [reflexivity|]. intros H. apply H. reflexivity.
Qed.

(** C4, as the code has it (WAV encoding).  For every sample array with
    [36 + 2 * samples.length < 2^32] and every integer sample rate with
    [0 < sampleRate] and [2 * sampleRate < 2^32], [createWavBlob] produces
    exactly [44 + 2 * samples.length] bytes: a little-endian RIFF/WAVE
    header with chunk size [36 + dataSize], a [fmt ] subchunk of size 16
    with format tag 1, 1 channel, the given sample rate, byte rate
    [sampleRate * 2], block align 2 and bit depth 16, and a [data] subchunk
    of size [samples.length * 2]; payload sample [i] is the little-endian
    signed 16-bit conversion of the sample clamped to [-1, 1] and scaled by
    32768 when negative and by 32767 otherwise, which for a finite sample is
    the integer part of that product. *)
Theorem C4_wav_encoding (samples : Float32Array) (sampleRate : Z) :
  (0 < sampleRate)%Z ->
  (2 * sampleRate < 2 ^ 32)%Z ->
  (36 + 2 * Z.of_nat (length samples) < 2 ^ 32)%Z ->
  exists bytes : ArrayBuffer,
    createWavBlob samples (of_Z sampleRate)
    = Returned (mkBlob bytes "audio/wav") /\
    length bytes = 44 + 2 * length samples /\
    firstn 4 bytes = tag_codes "RIFF" /\
    getUint32 bytes 4 = (36 + 2 * Z.of_nat (length samples))%Z /\
    firstn 4 (skipn 8 bytes) = tag_codes "WAVE" /\
    firstn 4 (skipn 12 bytes) = tag_codes "fmt " /\
    getUint32 bytes 16 = 16%Z /\
    getUint16 bytes 20 = 1%Z /\
    getUint16 bytes 22 = 1%Z /\
    getUint32 bytes 24 = sampleRate /\
    getUint32 bytes 28 = (sampleRate * 2)%Z /\
    getUint16 bytes 32 = 2%Z /\
    getUint16 bytes 34 = 16%Z /\
    firstn 4 (skipn 36 bytes) = tag_codes "data" /\
    getUint32 bytes 40 = (2 * Z.of_nat (length samples))%Z /\
    (forall i s,
        nth_error samples i = Some s ->
        getInt16 bytes (44 + 2 * i) = ToInt16 (pcm_value s)) /\
    (forall i x,
        nth_error samples i = Some (Fin x) ->
        getInt16 bytes (44 + 2 * i) = pcm16 x).
Proof.
  intros Hpos Hrate Hsize.
  assert (Hpay : forall i s,
             nth_error samples i = Some s ->
             getInt16 (wav_header (length samples) (of_Z sampleRate)
                         ++ wav_payload samples) (44 + 2 * i)
             = ToInt16 (pcm_value s)).
  { intros i s Hi. unfold getInt16, getUint.
    rewrite (@skipn_app_len _ _ (2 * i) _ _
               (wav_header_length (length samples) (of_Z sampleRate))).
    rewrite (wav_payload_at samples i Hi), decode_u16. reflexivity. }
  exists (wav_header (length samples) (of_Z sampleRate) ++ wav_payload samples).
  split; [apply createWavBlob_bytes|].
  split; [rewrite length_app, wav_header_length, wav_payload_length; reflexivity|].
  split; [reflexivity|].
  split.
  { unfold getUint32, getUint.
    transitivity (ToUint 32 (of_nat (36 + length samples * 2)));
      [exact (decode_u32 _)|].
    unfold of_nat. rewrite ToUint_of_Z; lia. }
  split; [reflexivity|]. split; [reflexivity|].
  split; [reflexivity|]. split; [reflexivity|]. split; [reflexivity|].
  split.
  { unfold getUint32, getUint.
    transitivity (ToUint 32 (of_Z sampleRate)); [exact (decode_u32 _)|].
    rewrite ToUint_of_Z; lia. }
  split.
  { unfold getUint32, getUint.
    transitivity (ToUint 32 (of_Z (sampleRate * 2)));
      [exact (decode_u32 (num_mul (of_Z sampleRate) (of_nat 2)))|].
    rewrite ToUint_of_Z; lia. }
  split; [reflexivity|]. split; [reflexivity|]. split; [reflexivity|].
  split.
  { unfold getUint32, getUint.
    transitivity (ToUint 32 (of_nat (length samples * 2)));
      [exact (decode_u32 _)|].
    unfold of_nat. rewrite ToUint_of_Z; lia. }
  split; [exact Hpay|].
  intros i x Hi. rewrite (Hpay i _ Hi). apply ToInt16_pcm.
Qed.

(** C4 as stated fails for a sample rate whose double does not fit 32 bits:
    at 2147483648 Hz the byte-rate field reads 0, not [sampleRate * 2]. *)
Lemma C4_counterexample :
  exists bytes : ArrayBuffer,
    createWavBlob [] (of_Z 2147483648) = Returned (mkBlob bytes "audio/wav") /\
    getUint32 bytes 24 = 2147483648%Z /\
    getUint32 bytes 28 = 0%Z /\
    getUint32 bytes 28 <> (2147483648 * 2)%Z.
Proof.
  eexists. split; [vm_compute; reflexivity|].
  split; [vm_compute; reflexivity|]. split; [vm_compute; reflexivity|].
  vm_compute. discriminate.
Qed.


(** ** Instances *)

Lemma C1_witness :
  let buffer := SampleBuffer.push (ramp 10) SampleBuffer.empty in
  let r := drainSegments 10 buffer 4 1 in
  SampleBuffer.wf buffer /\ 0 < 1 /\ 1 <= 4 /\
  emitted_of r
  = [map of_nat [0; 1; 2; 3]; map of_nat [3; 4; 5; 6]; map of_nat [6; 7; 8; 9]] /\
  (forall e, r <> Raised e) /\
  Forall (fun s => length s = 4) (emitted_of r) /\
  (forall k s1 s2,
      nth_error (emitted_of r) k = Some s1 ->
      nth_error (emitted_of r) (S k) = Some s2 ->
      firstn 1 s2 = lastn 1 s1 /\ length (firstn 1 s2) = 1).
Proof.
  assert (Hwf : SampleBuffer.wf (SampleBuffer.push (ramp 10) SampleBuffer.empty)).
  { split; [reflexivity|]. repeat constructor. }
  cbv zeta. split; [exact Hwf|]. split; [lia|]. split; [lia|].
  split; [reflexivity|].
  apply (@C1_overlap_invariant 10
           (SampleBuffer.push (ramp 10) SampleBuffer.empty) 4 1 Hwf); lia.
Defined.


Lemma C4_witness :
  let samples := [Fin 0; Fin (1 # 2); Fin (- 1 # 2); Fin (1 # 4)] in
  (0 < 16000)%Z /\ (2 * 16000 < 2 ^ 32)%Z /\
  (36 + 2 * Z.of_nat (length samples) < 2 ^ 32)%Z /\
  exists bytes : ArrayBuffer,
    createWavBlob samples (of_Z 16000) = Returned (mkBlob bytes "audio/wav") /\
    length bytes = 44 + 2 * length samples /\
    getUint32 bytes 24 = 16000%Z /\
    getUint32 bytes 28 = (16000 * 2)%Z /\
    getUint32 bytes 40 = (2 * Z.of_nat (length samples))%Z.
Proof.
  cbv zeta. split; [reflexivity|]. split; [reflexivity|]. split; [reflexivity|].
  destruct (@C4_wav_encoding [Fin 0; Fin (1 # 2); Fin (- 1 # 2); Fin (1 # 4)]
              16000 eq_refl eq_refl eq_refl)
    as (bytes & H1 & H2 & _ & _ & _ & _ & _ & _ & _ & H3 & H4 & _ & _ & _ & H5 & _).
  exists bytes. repeat split; assumption.
Defined.

Lemma C7_witness :
  let buffer := SampleBuffer.push (ramp 10) SampleBuffer.empty in
  SampleBuffer.wf buffer /\ 1 <= 4 /\ 1 < 4 /\
  (exists fuel buffer' emitted,
      drainSegments fuel buffer 4 1 = Finished (buffer', emitted)) /\
  (forall fuel buffer' emitted,
      drainSegments fuel buffer 4 1 = Finished (buffer', emitted) ->
      SampleBuffer.length buffer' < 4 /\
      SampleBuffer.length buffer' <= 4 - 1 + 1).
Proof.
  assert (Hwf : SampleBuffer.wf (SampleBuffer.push (ramp 10) SampleBuffer.empty)).
  { split; [reflexivity|]. repeat constructor. }
  cbv zeta. split; [exact Hwf|]. split; [lia|]. split; [lia|].
  apply (@C7_residual_bound
           (SampleBuffer.push (ramp 10) SampleBuffer.empty) 4 1 Hwf); lia.
Defined.

Lemma C10_witness :
  let buffer := SampleBuffer.push (ramp 10) SampleBuffer.empty in
  SampleBuffer.wf buffer /\
  (exists fuel st, drainSegments fuel buffer 4 1 = Finished st) /\
  (forall fuel, exists st,
      drainSegments fuel buffer 4 4 = OutOfFuel st /\
      SampleBuffer.length (fst st) = SampleBuffer.length buffer /\
      length (snd st) = fuel).
Proof.
  assert (Hwf : SampleBuffer.wf (SampleBuffer.push (ramp 10) SampleBuffer.empty)).
  { split; [reflexivity|]. repeat constructor. }
  cbv zeta. split; [exact Hwf|]. split.
  - destruct (@C10_termination_precondition
                (SampleBuffer.push (ramp 10) SampleBuffer.empty) 4 1 Hwf)
      as [Hterm _].
    destruct Hterm as [_ Hex]; [lia | exact Hex].
  - destruct (@C10_termination_precondition
                (SampleBuffer.push (ramp 10) SampleBuffer.empty) 4 4 Hwf)
      as [_ Hdiv].
    destruct Hdiv as [_ Hloop]; [reflexivity | simpl; lia | exact Hloop].
Defined.

(* ================================================================== *)
(** * Further properties, stated *)

(** X1 (the accumulator is a flat queue).  After every sequence of push,
    prepend, consume, drain and clear calls on a fresh [SampleBuffer], the
    unconsumed samples are those of a flat list on which push appends,
    prepend inserts at the front, a consume that fits drops its samples
    from the front, a consume that does not fit changes nothing, and drain
    and clear leave nothing; [length] is the length of that list. *)
Theorem X1_flat_queue (ops : list SampleBuffer.op) :
  SampleBuffer.contents (SampleBuffer.run ops) = fold_left flat_apply ops [] /\
  SampleBuffer.length (SampleBuffer.run ops)
  = length (fold_left flat_apply ops []).
Proof.
  assert (H : SampleBuffer.contents (SampleBuffer.run ops)
              = fold_left flat_apply ops []).
  { unfold SampleBuffer.run. now rewrite flat_apply_fold by apply wf_empty. }
  split; [exact H|].
  rewrite <- H. apply (wf_run ops).
Qed.

(** X2 (drain hands over everything, once).  In every state a
    [SampleBuffer] can reach, [drain()] returns all unconsumed samples in
    order and leaves the object as a fresh one (no runs, length 0), so a
    second [drain()] returns the empty array. *)
Theorem X2_drain_all_once (ops : list SampleBuffer.op) :
  let b := SampleBuffer.run ops in
  SampleBuffer.drain b = Returned (SampleBuffer.contents b, SampleBuffer.empty) /\
  length (SampleBuffer.contents b) = SampleBuffer.length b /\
  SampleBuffer.drain SampleBuffer.empty = Returned ([], SampleBuffer.empty).
Proof.
  intros b. split; [apply drain_wf, wf_run|]. split; [|reflexivity].
  symmetry. apply (wf_run ops).
Qed.

(** X3 (consume is undone by prepend).  In every reachable state, when
    [consume(n)] succeeds, prepending the returned samples gives back a
    buffer with the same unconsumed samples and the same length as before
    the call. *)
Theorem X3_consume_prepend_restores (ops : list SampleBuffer.op) (n : nat) :
  n <= SampleBuffer.length (SampleBuffer.run ops) ->
  exists samples b',
    SampleBuffer.consume n (SampleBuffer.run ops) = Returned (samples, b') /\
    SampleBuffer.contents (SampleBuffer.prepend samples b')
    = SampleBuffer.contents (SampleBuffer.run ops) /\
    SampleBuffer.length (SampleBuffer.prepend samples b')
    = SampleBuffer.length (SampleBuffer.run ops).
Proof.
  intros Hn. set (b := SampleBuffer.run ops) in *.
  pose proof (wf_run ops) as Hwf. fold b in Hwf.
  destruct (consume_wf Hwf Hn) as (b' & Hc & Hwf' & Hcont).
  exists (firstn n (SampleBuffer.contents b)), b'.
  split; [assumption|].
  assert (Hsame : SampleBuffer.contents
                    (SampleBuffer.prepend (firstn n (SampleBuffer.contents b)) b')
                  = SampleBuffer.contents b)
    by (rewrite prepend_contents, Hcont; apply firstn_skipn).
  split; [assumption|].
  rewrite (wf_length (wf_prepend _ Hwf')), Hsame. symmetry. now apply wf_length.
Qed.

Lemma X3_witness :
  let ops := [SampleBuffer.Push (ramp 3); SampleBuffer.Push (ramp 4)] in
  5 <= SampleBuffer.length (SampleBuffer.run ops) /\
  exists samples b',
    SampleBuffer.consume 5 (SampleBuffer.run ops) = Returned (samples, b') /\
    SampleBuffer.contents (SampleBuffer.prepend samples b')
    = SampleBuffer.contents (SampleBuffer.run ops) /\
    SampleBuffer.length (SampleBuffer.prepend samples b')
    = SampleBuffer.length (SampleBuffer.run ops).
Proof.
  cbv zeta. split; [vm_compute; lia|].
  apply (@X3_consume_prepend_restores
           [SampleBuffer.Push (ramp 3); SampleBuffer.Push (ramp 4)] 5).
  vm_compute; lia.
Defined.

(** X4 (consume composes).  In every reachable state, when [n + m] samples
    are available, [consume(n)] followed by [consume(m)] returns two arrays
    whose concatenation is what a single [consume(n + m)] returns, and both
    ways leave the same unconsumed samples and the same length. *)
Theorem X4_consume_splits (ops : list SampleBuffer.op) (n m : nat) :
  n + m <= SampleBuffer.length (SampleBuffer.run ops) ->
  exists s1 b1 s2 b2 b12,
    SampleBuffer.consume n (SampleBuffer.run ops) = Returned (s1, b1) /\
    SampleBuffer.consume m b1 = Returned (s2, b2) /\
    SampleBuffer.consume (n + m) (SampleBuffer.run ops)
    = Returned (s1 ++ s2, b12) /\
    length s1 = n /\ length s2 = m /\
    SampleBuffer.contents b12 = SampleBuffer.contents b2 /\
    SampleBuffer.length b12 = SampleBuffer.length b2.
Proof.
  intros Hnm. set (b := SampleBuffer.run ops) in *.
  pose proof (wf_run ops) as Hwf. fold b in Hwf.
  pose proof (wf_length Hwf) as Hlen.
  destruct (@consume_wf n b Hwf) as (b1 & Hc1 & Hwf1 & Hcont1); [lia|].
  destruct (@consume_wf m b1 Hwf1) as (b2 & Hc2 & Hwf2 & Hcont2).
  { rewrite (wf_length Hwf1), Hcont1, length_skipn. lia. }
  destruct (@consume_wf (n + m) b Hwf Hnm) as (b12 & Hc12 & Hwf12 & Hcont12).
  exists (firstn n (SampleBuffer.contents b)), b1,
    (firstn m (SampleBuffer.contents b1)), b2, b12.
  assert (Hsame : SampleBuffer.contents b12 = SampleBuffer.contents b2)
    by (rewrite Hcont12, Hcont2, Hcont1; apply skipn_plus).
  split; [assumption|]. split; [assumption|]. split.
  { rewrite Hc12, Hcont1. f_equal. f_equal. apply firstn_plus. }
  split; [rewrite length_firstn; lia|].
  split; [rewrite length_firstn, Hcont1, length_skipn; lia|].
  split; [assumption|].
  now rewrite (wf_length Hwf12), (wf_length Hwf2), Hsame.
Qed.

Lemma X4_witness :
  let ops := [SampleBuffer.Push (ramp 3); SampleBuffer.Push (ramp 4)] in
  2 + 3 <= SampleBuffer.length (SampleBuffer.run ops) /\
  exists s1 b1 s2 b2 b12,
    SampleBuffer.consume 2 (SampleBuffer.run ops) = Returned (s1, b1) /\
    SampleBuffer.consume 3 b1 = Returned (s2, b2) /\
    SampleBuffer.consume (2 + 3) (SampleBuffer.run ops)
    = Returned (s1 ++ s2, b12) /\
    length s1 = 2 /\ length s2 = 3 /\
    SampleBuffer.contents b12 = SampleBuffer.contents b2 /\
    SampleBuffer.length b12 = SampleBuffer.length b2.
Proof.
  cbv zeta. split; [vm_compute; lia|].
  apply (@X4_consume_splits
           [SampleBuffer.Push (ramp 3); SampleBuffer.Push (ramp 4)] 2 3).
  vm_compute; lia.
Defined.

(** X5 (segments are sliding windows).  When an iteration makes progress
    ([advance > 0]: the overlap is below the segment length, or between one
    and two segment lengths), [drainSegments] on a well-formed buffer
    returns within [buffer.length] iterations, and the segments it emitted
    are exactly the windows of [segmentSamples] samples that start at
    [0, advance, 2 * advance, ...] in the buffered samples, as many as fit;
    the buffer keeps the samples from the start of the next window on,
    fewer than [segmentSamples] of them. *)
Theorem X5_sliding_windows (buffer : SampleBuffer.t)
    (segmentSamples overlapSamples fuel : nat) :
  SampleBuffer.wf buffer ->
  0 < advance segmentSamples overlapSamples ->
  SampleBuffer.length buffer <= fuel ->
  let adv := advance segmentSamples overlapSamples in
  let stream := SampleBuffer.contents buffer in
  let count := segment_count segmentSamples adv (length stream) in
  exists buffer',
    drainSegments fuel buffer segmentSamples overlapSamples
    = Finished (buffer', windows segmentSamples adv stream 0 count) /\
    SampleBuffer.contents buffer' = skipn (count * adv) stream /\
    SampleBuffer.length buffer' = length stream - count * adv /\
    SampleBuffer.length buffer' < segmentSamples /\
    Forall (fun s => length s = segmentSamples)
           (windows segmentSamples adv stream 0 count).
Proof.
  intros Hwf Hadv Hfuel adv stream count.
  destruct (drainSegments_windows segmentSamples overlapSamples Hwf Hadv Hfuel)
    as (b' & Hr & Hwf' & Hc & Hcnt & Hlast & Hres).
  fold adv stream count in Hr, Hc, Hcnt, Hlast.
  exists b'. split; [exact Hr|]. split; [exact Hc|].
  split; [rewrite (wf_length Hwf'), Hc, length_skipn; reflexivity|].
  split; [exact Hres|].
  unfold windows. apply Forall_forall. intros s Hs.
  apply in_map_iff in Hs as (k & <- & Hk). apply in_seq in Hk.
  unfold window. rewrite length_firstn, length_skipn.
  destruct Hlast as [H0|Hlast]; [lia|]. nia.
Qed.

Lemma X5_witness :
  let buffer := SampleBuffer.push (ramp 10) SampleBuffer.empty in
  SampleBuffer.wf buffer /\ 0 < advance 4 1 /\ SampleBuffer.length buffer <= 10 /\
  exists buffer',
    drainSegments 10 buffer 4 1
    = Finished (buffer', windows 4 (advance 4 1) (SampleBuffer.contents buffer) 0
                           (segment_count 4 (advance 4 1)
                              (length (SampleBuffer.contents buffer)))) /\
    SampleBuffer.contents buffer' = [of_nat 9].
Proof.
  assert (Hwf : SampleBuffer.wf (SampleBuffer.push (ramp 10) SampleBuffer.empty)).
  { split; [reflexivity|]. repeat constructor. }
  cbv zeta. split; [exact Hwf|]. split; [vm_compute; lia|].
  split; [vm_compute; lia|].
  destruct (@X5_sliding_windows
              (SampleBuffer.push (ramp 10) SampleBuffer.empty) 4 1 10 Hwf)
    as (b' & Hr & Hc & _); [vm_compute; lia | vm_compute; lia |].
  exists b'. split; [exact Hr|]. rewrite Hc. reflexivity.
Defined.

(** X6 (nothing is lost between segments).  Under the same conditions, the
    first [advance] samples of each emitted segment, in order, followed by
    what the buffer keeps, are exactly the samples the buffer held before
    the call: apart from the overlap no sample is dropped, repeated or
    reordered. *)
Theorem X6_segments_cover_stream (buffer : SampleBuffer.t)
    (segmentSamples overlapSamples fuel : nat) :
  SampleBuffer.wf buffer ->
  0 < advance segmentSamples overlapSamples ->
  SampleBuffer.length buffer <= fuel ->
  exists buffer' emitted,
    drainSegments fuel buffer segmentSamples overlapSamples
    = Finished (buffer', emitted) /\
    concat (map (firstn (advance segmentSamples overlapSamples)) emitted)
    ++ SampleBuffer.contents buffer'
    = SampleBuffer.contents buffer.
Proof.
  intros Hwf Hadv Hfuel.
  destruct (drainSegments_windows segmentSamples overlapSamples Hwf Hadv Hfuel)
    as (b' & Hr & _ & Hc & _).
  eexists b', _. split; [exact Hr|].
  rewrite concat_strides by apply advance_le.
  rewrite Hc. apply firstn_skipn.
Qed.

Lemma X6_witness :
  let buffer := SampleBuffer.push (ramp 10) SampleBuffer.empty in
  SampleBuffer.wf buffer /\ 0 < advance 4 1 /\ SampleBuffer.length buffer <= 10 /\
  exists buffer' emitted,
    drainSegments 10 buffer 4 1 = Finished (buffer', emitted) /\
    concat (map (firstn (advance 4 1)) emitted) ++ SampleBuffer.contents buffer'
    = SampleBuffer.contents buffer.
Proof.
  assert (Hwf : SampleBuffer.wf (SampleBuffer.push (ramp 10) SampleBuffer.empty)).
  { split; [reflexivity|]. repeat constructor. }
  cbv zeta. split; [exact Hwf|]. split; [vm_compute; lia|].
  split; [vm_compute; lia|].
  apply (@X6_segments_cover_stream
           (SampleBuffer.push (ramp 10) SampleBuffer.empty) 4 1 10 Hwf);
    vm_compute; lia.
Defined.

(** X7 (when drainSegments returns).  On a well-formed buffer the loop of
    [drainSegments] reaches its exit if and only if the buffer holds fewer
    than [segmentSamples] samples or an iteration makes progress
    ([advance > 0]); otherwise, which is the case when the overlap equals
    the segment length or is at least twice it, the loop runs forever. *)
Theorem X7_returns_iff_progress (buffer : SampleBuffer.t)
    (segmentSamples overlapSamples : nat) :
  SampleBuffer.wf buffer ->
  ((exists fuel st,
       drainSegments fuel buffer segmentSamples overlapSamples = Finished st)
   <-> (SampleBuffer.length buffer < segmentSamples
        \/ 0 < advance segmentSamples overlapSamples)) /\
  (advance segmentSamples overlapSamples = 0
   <-> (overlapSamples = segmentSamples
        \/ 2 * segmentSamples <= overlapSamples)).
Proof.
  intros Hwf. split; [split|].
  - intros (fuel & st & Hr).
    destruct (Nat.lt_ge_cases (SampleBuffer.length buffer) segmentSamples)
      as [Hshort|Hseg]; [now left | right].
    destruct (Nat.eq_0_gt_0_cases (advance segmentSamples overlapSamples))
      as [Hz|Hpos]; [|assumption].
    destruct (@drainSegments_loop_stuck segmentSamples overlapSamples Hz fuel
                buffer [] Hwf Hseg) as (b' & Hstuck & _).
    unfold drainSegments in Hr. congruence.
  - intros [Hshort|Hadv].
    + exists 0, (buffer, []). unfold drainSegments. cbn [drainSegments_loop fst].
      destruct (Nat.leb_spec segmentSamples (SampleBuffer.length buffer));
        [lia | reflexivity].
    + destruct (@drainSegments_windows segmentSamples overlapSamples
                  (SampleBuffer.length buffer) buffer Hwf Hadv (le_n _))
        as (b' & Hr & _).
      eauto.
  - unfold advance.
    destruct (Nat.leb_spec overlapSamples segmentSamples); lia.
Qed.

Lemma X7_witness :
  let buffer := SampleBuffer.push (ramp 10) SampleBuffer.empty in
  SampleBuffer.wf buffer /\
  (exists fuel st, drainSegments fuel buffer 4 6 = Finished st) /\
  ~ (exists fuel st, drainSegments fuel buffer 4 8 = Finished st).
Proof.
  assert (Hwf : SampleBuffer.wf (SampleBuffer.push (ramp 10) SampleBuffer.empty)).
  { split; [reflexivity|]. repeat constructor. }
  cbv zeta. split; [exact Hwf|]. split.
  - apply (@X7_returns_iff_progress
             (SampleBuffer.push (ramp 10) SampleBuffer.empty) 4 6 Hwf).
    right. vm_compute. lia.
  - intros H.
    apply (@X7_returns_iff_progress
             (SampleBuffer.push (ramp 10) SampleBuffer.empty) 4 8 Hwf) in H.
    vm_compute in H. lia.
Defined.

(** X8 (segmenting does not depend on the chunking).  Pushing resampled
    chunks one by one and running [drainSegments] after each non-empty push
    records exactly the full windows of the concatenated stream (stride
    [advance], as in X5) and keeps the rest of it; so two ways of cutting
    the same stream into chunks record the same segments and leave the same
    samples in the buffer. *)
Theorem X8_segmenting_ignores_chunking (xs ys : list Float32Array)
    (segmentSamples overlapSamples fuel : nat) :
  0 < advance segmentSamples overlapSamples ->
  concat xs = concat ys ->
  length (concat xs) <= fuel ->
  let adv := advance segmentSamples overlapSamples in
  let count := segment_count segmentSamples adv (length (concat xs)) in
  exists bx by_,
    feed_all fuel segmentSamples overlapSamples xs (SampleBuffer.empty, [])
    = Done (bx, windows segmentSamples adv (concat xs) 0 count) /\
    feed_all fuel segmentSamples overlapSamples ys (SampleBuffer.empty, [])
    = Done (by_, windows segmentSamples adv (concat xs) 0 count) /\
    SampleBuffer.contents bx = skipn (count * adv) (concat xs) /\
    SampleBuffer.contents by_ = SampleBuffer.contents bx.
Proof.
  intros Hadv Hsame Hfuel adv count.
  assert (Hseg : 0 < segmentSamples)
    by (pose proof (advance_le segmentSamples overlapSamples); lia).
  destruct (@feed_all_fed segmentSamples overlapSamples fuel Hadv xs []
              (SampleBuffer.empty, []) (fed_init _ Hseg) Hfuel)
    as ([bx rx] & Hx & _ & Hcx & Hrx & _).
  destruct (@feed_all_fed segmentSamples overlapSamples fuel Hadv ys []
              (SampleBuffer.empty, []) (fed_init _ Hseg))
    as ([by_ ry] & Hy & _ & Hcy & Hry & _).
  { simpl. rewrite <- Hsame. exact Hfuel. }
  simpl in Hcx, Hrx, Hcy, Hry. rewrite <- Hsame in Hcy, Hry.
  fold adv in Hcx, Hrx, Hcy, Hry. fold count in Hcx, Hrx, Hcy, Hry.
  exists bx, by_. rewrite Hx, Hy, Hrx, Hry.
  split; [reflexivity|]. split; [reflexivity|].
  split; [assumption|]. congruence.
Qed.

Lemma X8_witness :
  let xs := [ramp 3; []; ramp 7] in
  let ys := [ramp 3 ++ ramp 7] in
  0 < advance 4 1 /\ concat xs = concat ys /\ length (concat xs) <= 10 /\
  exists bx by_,
    feed_all 10 4 1 xs (SampleBuffer.empty, [])
    = Done (bx, windows 4 (advance 4 1) (concat xs) 0
                  (segment_count 4 (advance 4 1) (length (concat xs)))) /\
    feed_all 10 4 1 ys (SampleBuffer.empty, [])
    = Done (by_, windows 4 (advance 4 1) (concat xs) 0
                   (segment_count 4 (advance 4 1) (length (concat xs)))) /\
    SampleBuffer.contents bx
    = skipn (segment_count 4 (advance 4 1) (length (concat xs)) * advance 4 1)
            (concat xs) /\
    SampleBuffer.contents by_ = SampleBuffer.contents bx.
Proof.
  cbv zeta. split; [vm_compute; lia|]. split; [reflexivity|].
  split; [vm_compute; lia|].
  apply (@X8_segmenting_ignores_chunking
           [ramp 3; []; ramp 7] [ramp 3 ++ ramp 7] 4 1 10);
    [vm_compute; lia | reflexivity | vm_compute; lia].
Defined.

(** X9 (what the capture loop records).  When the resampler returns for
    every chunk and an iteration of the segmenter makes progress, the
    audio-ingest stage records, in order, the full windows (stride
    [advance]) of the stream made of the resampler's outputs followed by
    its flush remainder, and then at most one final segment: the samples
    after the last window's start, fewer than [segmentSamples], padded with
    zeros to [segmentSamples] if there are at least [minFinalSamples] of
    them, and nothing otherwise. *)
Theorem X9_pipeline_segments (chunks : list Float32Array)
    (sourceRate targetRate : number)
    (segmentSamples overlapSamples minFinalSamples fuel : nat)
    (outputs : list Float32Array) (total : Z) (r' : StreamingResampler.t) :
  StreamingResampler.process_all chunks
    (StreamingResampler.constructor sourceRate targetRate)
  = Returned (outputs, total, r') ->
  0 < advance segmentSamples overlapSamples ->
  length (concat outputs ++ StreamingResampler.buffer r') <= fuel ->
  let adv := advance segmentSamples overlapSamples in
  let stream := concat outputs ++ StreamingResampler.buffer r' in
  let count := segment_count segmentSamples adv (length stream) in
  run_pipeline fuel segmentSamples overlapSamples minFinalSamples
    sourceRate targetRate chunks
  = Done (windows segmentSamples adv stream 0 count
            ++ padded_tail segmentSamples minFinalSamples
                 (skipn (count * adv) stream)) /\
  length (skipn (count * adv) stream) < segmentSamples.
Proof.
  intros Hall Hadv Hfuel adv stream count.
  assert (Hseg : 0 < segmentSamples)
    by (pose proof (advance_le segmentSamples overlapSamples); lia).
  unfold run_pipeline.
  destruct (@capture_fed segmentSamples overlapSamples fuel Hadv chunks
              (StreamingResampler.constructor sourceRate targetRate) []
              (SampleBuffer.empty, []) outputs total r' Hall
              (fed_init _ Hseg))
    as (st1 & Hcap & Hfed1).
  { simpl. rewrite length_app in Hfuel. lia. }
  rewrite Hcap. cbn [StreamingResampler.flush]. simpl app in Hfed1.
  destruct (@feed_fed segmentSamples overlapSamples fuel Hadv (concat outputs)
              (StreamingResampler.buffer r') st1 Hfed1 Hfuel)
    as ([b2 recorded] & Hfeed & Hwf2 & Hc2 & Hrec & _ & _ & Hres).
  rewrite Hfeed. cbn [fst snd] in *.
  fold stream in Hc2, Hrec. fold adv in Hc2, Hrec. fold count in Hc2, Hrec.
  rewrite (drain_wf Hwf2), Hc2.
  set (leftover := skipn (count * adv) stream) in *.
  assert (Hlen : length leftover < segmentSamples)
    by (rewrite <- Hc2, <- (wf_length Hwf2); exact Hres).
  split; [|exact Hlen].
  destruct (createFinalSegment_spec leftover minFinalSamples segmentSamples)
    as [Hnone Hsome].
  unfold padded_tail.
  destruct (Nat.ltb_spec (length leftover) minFinalSamples) as [Hshort|Hlong].
  - rewrite (Hnone Hshort), Hrec. now rewrite app_nil_r.
  - rewrite (Hsome Hlong), Hrec.
    rewrite Nat.min_l by lia. now rewrite firstn_all.
Qed.

Lemma X9_witness :
  exists outputs total r',
    StreamingResampler.process_all [ramp 5; ramp 4]
      (StreamingResampler.constructor (of_Z 2) (of_Z 1))
    = Returned (outputs, total, r') /\
    0 < advance 2 1 /\
    length (concat outputs ++ StreamingResampler.buffer r') <= 10 /\
    run_pipeline 10 2 1 1 (of_Z 2) (of_Z 1) [ramp 5; ramp 4]
    = Done (windows 2 (advance 2 1)
              (concat outputs ++ StreamingResampler.buffer r') 0
              (segment_count 2 (advance 2 1)
                 (length (concat outputs ++ StreamingResampler.buffer r')))
            ++ padded_tail 2 1
                 (skipn (segment_count 2 (advance 2 1)
                           (length (concat outputs
                                    ++ StreamingResampler.buffer r'))
                         * advance 2 1)
                    (concat outputs ++ StreamingResampler.buffer r'))).
Proof.
  destruct (StreamingResampler.process_all [ramp 5; ramp 4]
              (StreamingResampler.constructor (of_Z 2) (of_Z 1)))
    as [[[outputs total] r']|e] eqn:E; [|vm_compute in E; discriminate].
  exists outputs, total, r'.
  assert (Hlen : length (concat outputs ++ StreamingResampler.buffer r') <= 10).
  { vm_compute in E. injection E as <- _ <-. vm_compute. lia. }
  split; [reflexivity|]. split; [vm_compute; lia|]. split; [exact Hlen|].
  apply (@X9_pipeline_segments [ramp 5; ramp 4] (of_Z 2) (of_Z 1) 2 1 1 10
           outputs total r' E); [vm_compute; lia | exact Hlen].
Defined.

(** X10 (the encoder never fails).  For every sample array and every
    number given as sample rate (fractional, negative, NaN or infinite
    included) [createWavBlob] returns a blob of type [audio/wav] with
    exactly [44 + 2 * samples.length] bytes, each between 0 and 255; the
    four 32-bit header fields hold ToUint32 of the value written, so a
    value that does not fit is truncated and wrapped, never rejected. *)
Theorem X10_encoder_total (samples : Float32Array) (sampleRate : number) :
  exists bytes : ArrayBuffer,
    createWavBlob samples sampleRate = Returned (mkBlob bytes "audio/wav") /\
    length bytes = 44 + 2 * length samples /\
    Forall (fun b => (0 <= b < 256)%Z) bytes /\
    getUint32 bytes 4 = ToUint 32 (of_nat (36 + length samples * 2)) /\
    getUint32 bytes 24 = ToUint 32 sampleRate /\
    getUint32 bytes 28 = ToUint 32 (num_mul sampleRate (of_nat 2)) /\
    getUint32 bytes 40 = ToUint 32 (of_nat (length samples * 2)).
Proof.
  exists (wav_header (length samples) sampleRate ++ wav_payload samples).
  split; [apply createWavBlob_bytes|].
  split; [rewrite length_app, wav_header_length, wav_payload_length; reflexivity|].
  split; [apply Forall_app; split;
          [apply wav_header_range | apply wav_payload_range]|].
  unfold getUint32, getUint.
  split; [exact (decode_u32 _)|]. split; [exact (decode_u32 _)|].
  split; exact (decode_u32 _).
Qed.

(** X11 (quantisation error).  A finite sample [x] with [-1 <= x <= 1] is
    stored as a 16-bit value [v] in [-32768 .. 32767] obtained by
    truncation towards zero: [v <= 32767 x < v + 1] when [x >= 0], and
    [v - 1 < 32768 x <= v] when [x < 0]; decoding is therefore within one
    step of the scaled sample. *)
Theorem X11_quantisation_error (samples : Float32Array) (sampleRate : number)
    (i : nat) (x : Q) :
  nth_error samples i = Some (Fin x) ->
  (-1 <= x)%Q ->
  (x <= 1)%Q ->
  exists bytes : ArrayBuffer,
    createWavBlob samples sampleRate = Returned (mkBlob bytes "audio/wav") /\
    let v := getInt16 bytes (44 + 2 * i) in
    (-32768 <= v <= 32767)%Z /\
    ((0 <= x)%Q ->
     (inject_Z v <= x * 32767 /\ x * 32767 < inject_Z v + 1)%Q) /\
    ((x < 0)%Q ->
     (inject_Z v - 1 < x * 32768 /\ x * 32768 <= inject_Z v)%Q).
Proof.
  intros Hi Hlo Hhi.
  exists (wav_header (length samples) sampleRate ++ wav_payload samples).
  split; [apply createWavBlob_bytes|]. cbv zeta.
  rewrite (payload_sample samples sampleRate i Hi), ToInt16_pcm.
  pose proof (Qclamp_inside Hlo Hhi) as Hc.
  split; [apply pcm16_range|]. unfold pcm16, pcm_scaled. split.
  - intros Hx.
    destruct (Qlt_bool (Qclamp x) 0) eqn:E;
      [apply Qlt_bool_iff in E; lra|].
    destruct (@Qtrunc_nonneg (Qclamp x * 32767)%Q) as [H1 H2]; [lra|].
    split; lra.
  - intros Hx.
    destruct (Qlt_bool (Qclamp x) 0) eqn:E;
      [|apply Qlt_bool_false_le in E; lra].
    destruct (@Qtrunc_neg (Qclamp x * 32768)%Q) as [H1 H2]; [lra|].
    split; lra.
Qed.

Lemma X11_witness :
  nth_error [Fin 0; Fin (1 # 2); Fin (- 1 # 2)] 1 = Some (Fin (1 # 2)) /\
  (-1 <= 1 # 2)%Q /\ (1 # 2 <= 1)%Q /\
  exists bytes : ArrayBuffer,
    createWavBlob [Fin 0; Fin (1 # 2); Fin (- 1 # 2)] (of_Z 16000)
    = Returned (mkBlob bytes "audio/wav") /\
    let v := getInt16 bytes (44 + 2 * 1) in
    (-32768 <= v <= 32767)%Z /\
    ((0 <= 1 # 2)%Q ->
     (inject_Z v <= (1 # 2) * 32767 /\ (1 # 2) * 32767 < inject_Z v + 1)%Q) /\
    ((1 # 2 < 0)%Q ->
     (inject_Z v - 1 < (1 # 2) * 32768 /\ (1 # 2) * 32768 <= inject_Z v)%Q).
Proof.
  split; [reflexivity|]. split; [discriminate|]. split; [discriminate|].
  apply (@X11_quantisation_error [Fin 0; Fin (1 # 2); Fin (- 1 # 2)]
           (of_Z 16000) 1 (1 # 2) eq_refl); discriminate.
Defined.

(** X12 (quantisation is monotone).  If a finite sample is not greater than
    another one, its stored 16-bit value is not greater either, wherever
    the two samples are in the array. *)
Theorem X12_quantisation_monotone (samples : Float32Array)
    (sampleRate : number) (i j : nat) (x y : Q) :
  nth_error samples i = Some (Fin x) ->
  nth_error samples j = Some (Fin y) ->
  (x <= y)%Q ->
  exists bytes : ArrayBuffer,
    createWavBlob samples sampleRate = Returned (mkBlob bytes "audio/wav") /\
    (getInt16 bytes (44 + 2 * i) <= getInt16 bytes (44 + 2 * j))%Z.
Proof.
  intros Hi Hj Hxy.
  exists (wav_header (length samples) sampleRate ++ wav_payload samples).
  split; [apply createWavBlob_bytes|].
  rewrite (payload_sample samples sampleRate i Hi),
          (payload_sample samples sampleRate j Hj), !ToInt16_pcm.
  now apply pcm16_mono.
Qed.

Lemma X12_witness :
  nth_error [Fin (1 # 4); Fin (- 1 # 2)] 1 = Some (Fin (- 1 # 2)) /\
  nth_error [Fin (1 # 4); Fin (- 1 # 2)] 0 = Some (Fin (1 # 4)) /\
  (- 1 # 2 <= 1 # 4)%Q /\
  exists bytes : ArrayBuffer,
    createWavBlob [Fin (1 # 4); Fin (- 1 # 2)] (of_Z 16000)
    = Returned (mkBlob bytes "audio/wav") /\
    (getInt16 bytes (44 + 2 * 1) <= getInt16 bytes (44 + 2 * 0))%Z.
Proof.
  split; [reflexivity|]. split; [reflexivity|]. split; [discriminate|].
  apply (@X12_quantisation_monotone [Fin (1 # 4); Fin (- 1 # 2)]
           (of_Z 16000) 1 0 (- 1 # 2) (1 # 4) eq_refl eq_refl).
  discriminate.
Defined.

(** X13 (samples outside the range).  A sample of 1 or more is stored as
    32767 and a sample of -1 or less as -32768 (the clamp), a zero sample as
    0; an infinite sample is stored like 1 or -1, and a NaN sample as 0. *)
Theorem X13_saturation (samples : Float32Array) (sampleRate : number)
    (i : nat) (s : sample) :
  nth_error samples i = Some s ->
  exists bytes : ArrayBuffer,
    createWavBlob samples sampleRate = Returned (mkBlob bytes "audio/wav") /\
    let v := getInt16 bytes (44 + 2 * i) in
    (forall x, s = Fin x -> (1 <= x)%Q -> v = 32767%Z) /\
    (forall x, s = Fin x -> (x <= -1)%Q -> v = (-32768)%Z) /\
    (forall x, s = Fin x -> (x == 0)%Q -> v = 0%Z) /\
    (s = PosInf -> v = 32767%Z) /\
    (s = NegInf -> v = (-32768)%Z) /\
    (s = NaN -> v = 0%Z).
Proof.
  intros Hi.
  exists (wav_header (length samples) sampleRate ++ wav_payload samples).
  split; [apply createWavBlob_bytes|]. cbv zeta.
  rewrite (payload_sample samples sampleRate i Hi).
  split; [|split; [|split; [|split; [|split]]]].
  - intros x -> Hx. rewrite ToInt16_pcm.
    pose proof (pcm16_range x) as Hr.
    pose proof (@pcm16_mono 1 x Hx) as Hm.
    change (pcm16 1) with 32767%Z in Hm. lia.
  - intros x -> Hx. rewrite ToInt16_pcm.
    pose proof (pcm16_range x) as Hr.
    pose proof (@pcm16_mono x (-1) Hx) as Hm.
    change (pcm16 (-1)) with (-32768)%Z in Hm. lia.
  - intros x -> Hx. rewrite ToInt16_pcm.
    assert (H1 : (x <= 0)%Q) by lra. assert (H2 : (0 <= x)%Q) by lra.
    apply pcm16_mono in H1. apply pcm16_mono in H2.
    change (pcm16 0) with 0%Z in H1, H2. lia.
  - intros ->. reflexivity.
  - intros ->. reflexivity.
  - intros ->. reflexivity.
Qed.

Lemma X13_witness :
  nth_error [Fin 3; NaN] 0 = Some (Fin 3) /\
  exists bytes : ArrayBuffer,
    createWavBlob [Fin 3; NaN] (of_Z 16000)
    = Returned (mkBlob bytes "audio/wav") /\
    getInt16 bytes (44 + 2 * 0) = 32767%Z.
Proof.
  split; [reflexivity|].
  destruct (@X13_saturation [Fin 3; NaN] (of_Z 16000) 0 (Fin 3) eq_refl)
    as (bytes & Hb & H1 & _).
  exists bytes. split; [exact Hb|].
  apply (H1 3%Q eq_refl). discriminate.
Defined.

(** X14 (the resampler does not overshoot).  For a resampler with a
    positive finite ratio and a non-empty chunk, if every sample of the
    leftover and of the chunk is a finite number between [lo] and [hi],
    then [process] reads only inside the combined array and every emitted
    sample, as well as every sample kept as leftover, is again a finite
    number between [lo] and [hi]. *)
Theorem X14_resampler_stays_in_range (r : StreamingResampler.t)
    (q lo hi : Q) (input : Float32Array) :
  StreamingResampler.ratio r = Fin q ->
  (0 < q)%Q ->
  input <> [] ->
  Forall (in_range lo hi) (StreamingResampler.buffer r ++ input) ->
  exists output r',
    StreamingResampler.process input r = Returned (output, r') /\
    Forall (in_range lo hi) output /\
    Forall (in_range lo hi) (StreamingResampler.buffer r').
Proof.
  intros Hr Hq Hin HF.
  destruct (process_output Hq r Hr Hin) as (Hp & Hn & Hc).
  set (combined := StreamingResampler.buffer r ++ input) in *.
  set (n := Qfloor (inject_Z (Z.of_nat (length combined)) / q)) in *.
  eexists _, _. split; [exact Hp|]. split.
  - apply Forall_forall. intros s Hs.
    apply in_map_iff in Hs as (i & <- & Hi). apply in_seq in Hi.
    destruct (@interpolate_reads q Hq combined i (in_range_finite HF))
      as (xa & xb & Hv & Ha & Hb & Hl & Hrt & Hf); [fold n; lia|].
    rewrite Hv. simpl.
    apply between_in_range; [| |exact Hf].
    + match type of Ha with
      | nth ?j _ _ = _ =>
          apply (@in_range_nth lo hi combined j xa HF); [lia | exact Ha]
      end.
    + match type of Hb with
      | nth ?j _ _ = _ =>
          apply (@in_range_nth lo hi combined j xb HF); [lia | exact Hb]
      end.
  - cbn [StreamingResampler.buffer StreamingResampler.set_buffer].
    now apply Forall_skipn_keeps.
Qed.

Lemma X14_witness :
  let r := StreamingResampler.constructor (of_Z 3) (of_Z 2) in
  let input := [Fin 0; Fin 1; Fin (1 # 2); Fin (- 1)] in
  StreamingResampler.ratio r = Fin (3 # 2) /\ (0 < 3 # 2)%Q /\ input <> [] /\
  Forall (in_range (-1) 1) (StreamingResampler.buffer r ++ input) /\
  exists output r',
    StreamingResampler.process input r = Returned (output, r') /\
    Forall (in_range (-1) 1) output /\
    Forall (in_range (-1) 1) (StreamingResampler.buffer r').
Proof.
  assert (HF : Forall (in_range (-1) 1)
                 [Fin 0; Fin 1; Fin (1 # 2); Fin (- 1)]).
  { repeat constructor; discriminate. }
  cbv zeta. split; [reflexivity|]. split; [reflexivity|].
  split; [discriminate|]. split; [exact HF|].
  apply (@X14_resampler_stays_in_range
           (StreamingResampler.constructor (of_Z 3) (of_Z 2)) (3 # 2) (-1) 1
           [Fin 0; Fin 1; Fin (1 # 2); Fin (- 1)] eq_refl eq_refl);
    [discriminate | exact HF].
Defined.

(** X15 (an integer ratio decimates).  When the ratio is a whole number
    [k >= 1] (48000 to 16000 Hz gives 3; equal rates give 1) and the samples
    are finite, [process] emits [floor(combined.length / k)] samples, output
    [i] has the value of [combined[i * k]] (the interpolation weight is 0,
    the samples in between are not used), and the leftover is what follows
    the last [k]-sample group. *)
Theorem X15_integer_ratio_decimates (r : StreamingResampler.t) (q : Q)
    (k : nat) (input : Float32Array) :
  StreamingResampler.ratio r = Fin q ->
  (q == inject_Z (Z.of_nat k))%Q ->
  0 < k ->
  input <> [] ->
  Forall finite (StreamingResampler.buffer r ++ input) ->
  let combined := StreamingResampler.buffer r ++ input in
  exists output r',
    StreamingResampler.process input r = Returned (output, r') /\
    length output = length combined / k /\
    (forall i, i < length output ->
               num_eq (nth i output NaN) (nth (i * k) combined NaN)) /\
    StreamingResampler.buffer r' = skipn (length combined / k * k) combined.
Proof.
  intros Hr Hqk Hk Hin HF combined.
  assert (Hq : (0 < q)%Q).
  { rewrite Hqk. change 0%Q with (inject_Z 0). rewrite <- Zlt_Qlt. lia. }
  destruct (process_output Hq r Hr Hin) as (Hp & Hn & Hc).
  fold combined in Hp, Hn, Hc.
  set (L := length combined) in *.
  assert (HnE : Qfloor (inject_Z (Z.of_nat L) / q) = Z.of_nat (L / k)).
  { rewrite Hqk, <- Zdiv_Qdiv. rewrite Nat2Z.inj_div. reflexivity. }
  rewrite HnE in *.
  assert (HcE : Qfloor (inject_Z (Z.of_nat (L / k)) * q)
                = Z.of_nat (L / k * k)).
  { rewrite Hqk, <- inject_Z_mult, Qfloor_Z. lia. }
  rewrite HcE in *. rewrite !Nat2Z.id in Hp.
  eexists _, _. split; [exact Hp|].
  split; [now rewrite length_map, length_seq|].
  split; [|reflexivity].
  intros i Hi. rewrite length_map, length_seq in Hi.
  rewrite (nth_indep _ NaN (StreamingResampler.interpolate combined (Fin q) 0))
    by (rewrite length_map, length_seq; exact Hi).
  rewrite map_nth, seq_nth by exact Hi. cbn [Nat.add].
  destruct (@interpolate_reads q Hq combined i HF)
    as (xa & xb & Hv & Ha & _ & _ & _ & _).
  { fold L. rewrite HnE. lia. }
  assert (Hleft : Qfloor (inject_Z (Z.of_nat i) * q) = Z.of_nat (i * k)).
  { rewrite Hqk, <- inject_Z_mult, Qfloor_Z. lia. }
  rewrite Hleft in Hv, Ha. rewrite Nat2Z.id in Ha.
  rewrite Hv, Ha. simpl.
  assert (Hf : (inject_Z (Z.of_nat i) * q - inject_Z (Z.of_nat (i * k)) == 0)%Q).
  { rewrite Hqk, <- inject_Z_mult, Nat2Z.inj_mul. ring. }
  rewrite Hf. ring.
Qed.

Lemma X15_witness :
  let r := StreamingResampler.constructor (of_Z 48000) (of_Z 16000) in
  StreamingResampler.ratio r = Fin (48000 # 16000) /\
  (48000 # 16000 == inject_Z (Z.of_nat 3))%Q /\ 0 < 3 /\ ramp 7 <> [] /\
  Forall finite (StreamingResampler.buffer r ++ ramp 7) /\
  exists output r',
    StreamingResampler.process (ramp 7) r = Returned (output, r') /\
    length output = length (StreamingResampler.buffer r ++ ramp 7) / 3 /\
    (forall i, i < length output ->
               num_eq (nth i output NaN)
                      (nth (i * 3) (StreamingResampler.buffer r ++ ramp 7) NaN)) /\
    StreamingResampler.buffer r'
    = skipn (length (StreamingResampler.buffer r ++ ramp 7) / 3 * 3)
            (StreamingResampler.buffer r ++ ramp 7).
Proof.
  assert (HF : Forall finite (ramp 7)) by (repeat constructor).
  cbv zeta. split; [reflexivity|]. split; [reflexivity|]. split; [lia|].
  split; [discriminate|]. split; [exact HF|].
  apply (@X15_integer_ratio_decimates
           (StreamingResampler.constructor (of_Z 48000) (of_Z 16000))
           (48000 # 16000) 3 (ramp 7) eq_refl);
    [reflexivity | lia | discriminate | exact HF].
Defined.

(** X16 (bytes to samples).  [convertMp3BytesToSamples] returns one sample
    per byte; for bytes in [0 .. 255] every sample is a finite number
    between -1 and 127/128, so nothing downstream has to clamp it, and byte
    128 gives a sample of value 0. *)
Theorem X16_bytes_to_samples (buffer : list byte) :
  Forall (fun b => (0 <= b < 256)%Z) buffer ->
  length (convertMp3BytesToSamples buffer) = length buffer /\
  Forall (in_range (-1) (127 # 128)) (convertMp3BytesToSamples buffer) /\
  (forall i, nth_error buffer i = Some 128%Z ->
             exists x, nth_error (convertMp3BytesToSamples buffer) i
                       = Some (Fin x) /\ (x == 0)%Q).
Proof.
  intros HF. unfold convertMp3BytesToSamples.
  split; [apply length_map|]. split.
  - apply Forall_map. revert HF. apply Forall_impl. intros b Hb.
    unfold num_sub, of_Z, num_neg, num_add.
    rewrite num_div_fin by reflexivity. simpl.
    change (inject_Z 128) with 128%Q.
    assert (H0 : (inject_Z 0 <= inject_Z b)%Q) by (rewrite <- Zle_Qle; lia).
    assert (H1 : (inject_Z b <= inject_Z 255)%Q) by (rewrite <- Zle_Qle; lia).
    change (inject_Z 0) with 0%Q in H0. change (inject_Z 255) with 255%Q in H1.
    assert (E : ((inject_Z b + - 128) / 128 == (inject_Z b + - 128) * (1 # 128))%Q)
      by reflexivity.
    rewrite E. split; lra.
  - intros i Hi. eexists. split.
    + apply map_nth_error with (f := fun b => num_div (num_sub (of_Z b) (of_Z 128)) (of_Z 128)) in Hi.
      exact Hi.
    + reflexivity.
Qed.

Lemma X16_witness :
  Forall (fun b => (0 <= b < 256)%Z) [0; 128; 255]%Z /\
  length (convertMp3BytesToSamples [0; 128; 255]%Z) = 3 /\
  Forall (in_range (-1) (127 # 128)) (convertMp3BytesToSamples [0; 128; 255]%Z).
Proof.
  assert (HF : Forall (fun b => (0 <= b < 256)%Z) [0; 128; 255]%Z)
    by (repeat constructor; lia).
  split; [exact HF|].
  destruct (@X16_bytes_to_samples [0; 128; 255]%Z HF) as (H1 & H2 & _).
  split; assumption.
Defined.

(** X17 (fixture and encoder agree).  For every sample count and every
    sample rate, the mono 16-bit buffer built by [createTestWavBuffer] holds
    exactly the bytes that [createWavBlob] stores for the same number of
    samples of silence at that rate: the same 44 byte header followed by
    zeros. *)
Theorem X17_fixture_is_encoded_silence (n : nat) (sampleRate : number) :
  exists bytes,
    createTestWavBuffer sampleRate (of_Z 1) (of_nat n) (of_Z 16)
    = Returned bytes /\
    createWavBlob (repeat (Fin 0) n) sampleRate
    = Returned (mkBlob bytes "audio/wav") /\
    length bytes = 44 + n * 2.
Proof.
  exists (wav_header n sampleRate ++ repeat 0%Z (n * 2)).
  split; [apply createTestWavBuffer_mono16|]. split.
  - rewrite createWavBlob_bytes, repeat_length, wav_payload_silence.
    reflexivity.
  - rewrite length_app, repeat_length. reflexivity.
Qed.
